(** * normalobjects_langchain.py: tools and the tool-usage tracker

    A shallow embedding of the original logic of the script: the two
    keyword-matching tools, the random-selection tool and the
    [ToolUsageTracker] callback handler.  The chat model, the agent loop and
    the prompt template are third-party code and are not modelled; of
    [consult_demogorgon] only the name is used.

    Conventions.
    - A Python [int] is a [Z]; a Python [str] is a [string], compared
      character by character; [str.lower] folds the letters A to Z and
      leaves every other character as it is.
    - A Python [dict] with string keys is an association list in insertion
      order without repeated keys: the order is observable (iteration in
      [for key, value in d.items()] and in [max]).
    - Mutable objects ([dict], [list]) live in a store and are passed around
      by reference, as in Python; a method is a computation in a state and
      exception monad over that store. *)

From stdpp Require Import base option list gmap strings.
From Stdlib Require Import ZArith Ascii.

Local Open Scope Z_scope.

(** ** Exceptions, and the state-and-exception monad *)

Inductive exn : Type :=
| KeyError (key : string)      (* d[key] on a missing key *)
| IndexError                   (* l[i] out of range *)
| ValueError                   (* max() of an empty iterable, bad sample size *)
| TypeError                    (* an object of another type than expected *)
| InvalidParameter.            (* named by the specification; raised nowhere *)

Definition M (S A : Type) : Type := S → (exn + A) * S.

Definition ret {S A} (x : A) : M S A := λ s, (inr x, s).

Definition raise {S A} (e : exn) : M S A := λ s, (inl e, s).

Definition bind {S A B} (m : M S A) (f : A → M S B) : M S B :=
  λ s, match m s with
       | (inr x, s') => f x s'
       | (inl e, s') => (inl e, s')
       end.

Declare Scope py_scope.
Delimit Scope py_scope with py.
Notation "x <- m ;; k" := (bind m (λ x, k))
  (at level 100, m at next level, right associativity) : py_scope.
Notation "m ;;; k" := (bind m (λ _, k))
  (at level 100, right associativity) : py_scope.
Local Open Scope py_scope.

(** [for x in xs: body x] *)
Fixpoint for_each {S A} (xs : list A) (body : A → M S unit) : M S unit :=
  match xs with
  | [] => ret ()
  | x :: xs' => body x ;;; for_each xs' body
  end.

(** ** Dictionaries with string keys, in insertion order *)

Module Dict.

Definition t (V : Type) : Type := list (string * V).

Definition keys {V} (d : t V) : list string := d.*1.
Definition values {V} (d : t V) : list V := d.*2.
Definition items {V} (d : t V) : list (string * V) := d.

(** [d.get(k)] *)
Fixpoint get {V} (k : string) (d : t V) : option V :=
  match d with
  | [] => None
  | (k', v) :: d' => if decide (k = k') then Some v else get k d'
  end.

(** [k in d] *)
Definition contains {V} (k : string) (d : t V) : bool :=
  match get k d with Some _ => true | None => false end.

(** [d[k] = v]: an existing key keeps its position, a new key is added
    at the end. *)
Fixpoint set {V} (k : string) (v : V) (d : t V) : t V :=
  match d with
  | [] => [(k, v)]
  | (k', v') :: d' =>
      if decide (k = k') then (k', v) :: d' else (k', v') :: set k v d'
  end.

(** [{key(x): val(x) for x in xs}] *)
Definition comprehension {A V} (key : A → string) (val : A → V)
    (xs : list A) : t V :=
  foldl (λ d x, set (key x) (val x) d) [] xs.

(** [bool(d)]: a dict is true when it has an entry. *)
Definition truthy {V} (d : t V) : bool :=
  match d with [] => false | _ :: _ => true end.

(** [d[k]] *)
Definition getitem {S V} (k : string) (d : t V) : M S V :=
  match get k d with
  | Some v => ret v
  | None => raise (KeyError k)
  end.

End Dict.

(** [sum(xs)] over integers *)
Definition sum (xs : list Z) : Z := foldl Z.add 0 xs.

(** [len(xs)] *)
Definition len {A} (xs : list A) : Z := Z.of_nat (List.length xs).

(** [max(items, key=lambda x: x[1])]: the first item whose value is not
    exceeded by a later one; the running maximum is replaced only by a
    strictly greater item. *)
Fixpoint max_loop (best : string * Z) (rest : list (string * Z)) : string * Z :=
  match rest with
  | [] => best
  | x :: rest' => if best.2 <? x.2 then max_loop x rest' else max_loop best rest'
  end.

Definition max_by_value {S} (its : list (string * Z)) : M S (string * Z) :=
  match its with
  | [] => raise ValueError
  | x :: rest => ret (max_loop x rest)
  end.

(** ** The store of mutable objects *)

Definition loc : Type := positive.

Inductive pyobj : Type :=
| PDict (d : Dict.t Z)
| PList (l : list string).

Abbreviation heap := (gmap loc pyobj).

(** A new object gets an address that is not in use. *)
Definition alloc (o : pyobj) : M heap loc :=
  λ h, let l := fresh (dom h) in (inr l, <[l := o]> h).

Definition load_dict (l : loc) : M heap (Dict.t Z) :=
  λ h, match h !! l with
       | Some (PDict d) => (inr d, h)
       | _ => (inl TypeError, h)
       end.

Definition load_list (l : loc) : M heap (list string) :=
  λ h, match h !! l with
       | Some (PList xs) => (inr xs, h)
       | _ => (inl TypeError, h)
       end.

Definition store (l : loc) (o : pyobj) : M heap unit :=
  λ h, (inr (), <[l := o]> h).

(** [k in d] on a dict reference *)
Definition dict_contains (l : loc) (k : string) : M heap bool :=
  d <- load_dict l ;; ret (Dict.contains k d).

(** [d[k] += n] on a dict reference: read [d[k]], then write it back. *)
Definition dict_iadd (l : loc) (k : string) (n : Z) : M heap unit :=
  d <- load_dict l ;;
  v <- Dict.getitem k d ;;
  store l (PDict (Dict.set k (v + n) d)).

(** [xs.append(x)] on a list reference *)
Definition list_append (l : loc) (x : string) : M heap unit :=
  xs <- load_list l ;; store l (PList (xs ++ [x])).

(** ** The tool registry

    [tools] is the module-level list of the four decorated functions; a
    tool made by the bare [@tool] decorator is named after its function.
    Only the names are used by the tracker. *)

Definition tools : list string :=
  ["consult_demogorgon"; "check_hawkins_records";
   "cast_interdimensional_spell"; "gather_party_wisdom"].

(** The dict built by [get_statistics].  The values under ["tool_counts"]
    and ["tool_sequences"] are the tracker's own objects, so they are
    references here. *)
Module Statistics.

Record t : Type := Build {
  total_tool_calls : Z;
  tool_counts : loc;
  most_used : option string;
  tool_sequences : loc
}.

End Statistics.

(** ** ToolUsageTracker *)

Module ToolUsageTracker.

(** The instance: its two attributes are references to a dict and to a
    list, bound once by [__init__]. *)
Record t : Type := Build {
  usage_count : loc;
  tool_sequences : loc
}.

(** [__init__], over the registry it reads. *)
Definition init (tools : list string) : M heap t :=
  uc <- alloc (PDict (Dict.comprehension id (λ _, 0) tools)) ;;
  ts <- alloc (PList []) ;;
  ret (Build uc ts).

(** The [serialized] payload is a dict; only its ["name"] entry is read,
    with ["unknown"] for a payload without one:
    [serialized.get("name", "unknown")]. *)
Definition tool_name_of (serialized : gmap string string) : string :=
  default "unknown" (serialized !! "name").

Definition on_tool_start (self : t) (serialized : gmap string string)
    (input_str : string) : M heap unit :=
  let tool_name := tool_name_of serialized in
  known <- dict_contains (usage_count self) tool_name ;;
  if (known : bool) then
    dict_iadd (usage_count self) tool_name 1 ;;;
    list_append (tool_sequences self) tool_name
  else ret ().

(** [get_statistics]: the entries of the returned dict are evaluated in
    the order they are written. *)
Definition get_statistics (self : t) : M heap Statistics.t :=
  d <- load_dict (usage_count self) ;;
  let total := sum (Dict.values d) in
  d1 <- load_dict (usage_count self) ;;
  best <- (if Dict.truthy d1
           then x <- max_by_value (Dict.items d1) ;; ret (Some x.1)
           else ret None) ;;
  ret (Statistics.Build total (usage_count self) best (tool_sequences self)).

End ToolUsageTracker.

(** ** Strings *)

(** [c.lower()] for one character: the letters A to Z move to a to z. *)
Definition lower_char (c : ascii) : ascii :=
  let n := nat_of_ascii c in
  if ((65 <=? n) && (n <=? 90))%nat then ascii_of_nat (n + 32) else c.

(** [s.lower()] *)
Fixpoint lower (s : string) : string :=
  match s with
  | EmptyString => EmptyString
  | String c s' => String (lower_char c) (lower s')
  end.

(** [s.startswith(p)] *)
Fixpoint startswith (p s : string) : bool :=
  match p, s with
  | EmptyString, _ => true
  | String _ _, EmptyString => false
  | String a p', String b s' => if decide (a = b) then startswith p' s' else false
  end.

(** [k in s] on strings: [k] occurs in [s] as a contiguous substring. *)
Fixpoint str_in (k s : string) : bool :=
  startswith k s ||
  match s with
  | EmptyString => false
  | String _ s' => str_in k s'
  end.

(** The one-character string of a line feed *)
Definition newline : string := String (ascii_of_nat 10) EmptyString.

(** [sep.join(xs)] *)
Definition join (sep : string) (xs : list string) : string :=
  String.concat sep xs.

(** ** The keyword-matching tools *)

(** The loop shared by the two tools:
    [for key, value in table.items(): if key in text: return value]. *)
Fixpoint first_match (its : list (string * string)) (text : string)
    : option string :=
  match its with
  | [] => None
  | (key, value) :: its' =>
      if str_in key text then Some value else first_match its' text
  end.

Definition records : Dict.t string :=
  [("portal", "Records show portals have opened on various dates with no clear pattern.");
   ("monsters", "Historical records indicate creatures from the Upside Down behave differently based on environmental factors.");
   ("psychics", "Records show that psychic abilities vary greatly.");
   ("electricity", "Hawkins has a history of electrical anomalies.")].

Definition check_hawkins_records (query : string) : string :=
  match first_match (Dict.items records) (lower query) with
  | Some value => value
  | None =>
      "Records don't contain specific information about '" +:+ query +:+
      "', but many unexplained events have occurred in Hawkins."
  end.

Definition party_responses : Dict.t string :=
  [("portal", "Mike: 'Portals are unpredictable!' Dustin: 'They follow the Mind Flayer's activity.'");
   ("monsters", "Lucas: 'Demogorgons are territorial.' Will: 'They can sense fear and strong emotions.'");
   ("psychics", "Mike: 'El's powers are connected to her emotional state.' Dustin: 'Limited by her energy.'");
   ("electricity", "Lucas: 'The Upside Down interferes with electrical systems.' Dustin: 'It's like a feedback loop.'")].

Definition gather_party_wisdom (question : string) : string :=
  match first_match (Dict.items party_responses) (lower question) with
  | Some response => response
  | None =>
      "The party huddles together. Mike: 'This is a tough one.' Dustin: 'We need more information.'"
  end.

(** ** The random-selection tool *)

Definition creativity_levels : Dict.t Z :=
  [("low", 1); ("medium", 2); ("high", 3)].

Definition spells (problem : string) : list string :=
  ["Try chanting 'Becma Becma Becma' three times while holding a Walkman. This might recalibrate the interdimensional frequencies related to: " +:+ problem;
   "Create a salt circle and place a compass in the center. The magnetic anomalies might help stabilize: " +:+ problem;
   "Play 'Running Up That Hill' backwards at the exact location of the issue. The temporal resonance could fix: " +:+ problem;
   "Gather three items: a lighter, a compass, and something personal. Arrange them in a triangle while thinking about: " +:+ problem +:+ "."].

Section RandomSource.

(** The state of the module-level generator of [random], shared by every
    caller, and its primitive: [randbelow n] draws an index below [n] and
    advances the generator. *)
Variable rng : Type.
Variable randbelow : nat → rng → nat * rng.

Definition draw (n : nat) : M rng nat :=
  λ g, let '(j, g') := randbelow n g in (inr j, g').

(** [pool[i]] *)
Definition index {A} (pool : list A) (i : nat) : M rng A :=
  match pool !! i with
  | Some x => ret x
  | None => raise IndexError
  end.

(** The selection loop of [random.sample] on a copy [pool] of the
    population, as the library runs it for a population of at most 21
    items (the four spells are one): with [m] items not yet selected, at
    [pool[0:m]],
      [j = randbelow(m); result[i] = pool[j]; pool[j] = pool[m - 1]]. *)
Fixpoint sample_loop {A} (pool : list A) (m k : nat) : M rng (list A) :=
  match k with
  | O => ret []
  | S k' =>
      j <- draw m ;;
      x <- index pool j ;;
      y <- index pool (m - 1) ;;
      rest <- sample_loop (<[j := y]> pool) (m - 1) k' ;;
      ret (x :: rest)
  end.

(** [random.sample(population, k)] *)
Definition random_sample {A} (population : list A) (k : Z) : M rng (list A) :=
  let n := len population in
  if (0 <=? k) && (k <=? n)
  then sample_loop population (List.length population) (Z.to_nat k)
  else raise ValueError.

(** [creativity_level = None] stands for a call without that argument. *)
Definition cast_interdimensional_spell (problem : string)
    (creativity_level : option string) : M rng string :=
  let creativity_level := default "medium" creativity_level in
  creativity_multiplier <- Dict.getitem creativity_level creativity_levels ;;
  let spells := spells problem in
  selected <- random_sample spells (Z.min creativity_multiplier (len spells)) ;;
  ret (join newline selected).

End RandomSource.

Arguments draw {rng} randbelow n.
Arguments index {rng A} pool i.
Arguments sample_loop {rng} randbelow {A} pool m k.
Arguments random_sample {rng} randbelow {A} population k.
Arguments cast_interdimensional_spell {rng} randbelow problem creativity_level.

(** ** Running the tracker

    An event is what the agent runtime passes to [on_tool_start]: the
    [serialized] payload and the raw input.  [session] is the life of a
    tracker: construction, then the events in the order they arrive. *)

Definition event : Type := gmap string string * string.

Definition named (name : string) : event := ({["name" := name]}, "").

Definition event_name (e : event) : string :=
  ToolUsageTracker.tool_name_of e.1.

Definition deliver (tr : ToolUsageTracker.t) (evs : list event) : M heap unit :=
  for_each evs (λ e, ToolUsageTracker.on_tool_start tr e.1 e.2).

Definition session (tools : list string) (evs : list event)
    : M heap ToolUsageTracker.t :=
  tr <- ToolUsageTracker.init tools ;;
  deliver tr evs ;;;
  ret tr.

(** The tracker [tr] is in the state [(d, l)] in the store [h]: its
    attributes point to the dict [d] and to the list [l]. *)
Definition holds (h : heap) (tr : ToolUsageTracker.t)
    (d : Dict.t Z) (l : list string) : Prop :=
  h !! ToolUsageTracker.usage_count tr = Some (PDict d) ∧
  h !! ToolUsageTracker.tool_sequences tr = Some (PList l).

(** What one event does to the state of the tracker, without the store. *)
Definition step (st : Dict.t Z * list string) (name : string)
    : Dict.t Z * list string :=
  match Dict.get name st.1 with
  | Some c => (Dict.set name (c + 1) st.1, st.2 ++ [name])
  | None => st
  end.

(** The number of events of [evs] that name the tool [t]. *)
Definition calls_of (t : string) (evs : list event) : Z :=
  len (filter (λ name, name = t) (event_name <$> evs)).

(** The value of [most_used] for a tracker whose dict is [d]. *)
Definition most_used_of (d : Dict.t Z) : option string :=
  match d with
  | [] => None
  | x :: rest => Some (max_loop x rest).1
  end.

(** Every count is zero. *)
Definition all_zero (d : Dict.t Z) : Prop := Forall (λ x, x.2 = 0) d.

(** A dict with distinct keys [ts] is the table of a function on [ts]. *)
Definition table (f : string → Z) (ts : list string) : Dict.t Z :=
  (λ t, (t, f t)) <$> ts.

(** The number of times [t] occurs in [names]. *)
Definition occurrences (t : string) (names : list string) : Z :=
  len (filter (λ name, name = t) names).

(** The statistics of a tracker that has seen no event. *)
Definition fresh_statistics (tools : list string) : M heap Statistics.t :=
  tr <- ToolUsageTracker.init tools ;;
  ToolUsageTracker.get_statistics tr.

(** A snapshot is taken, then one more event arrives, then the counts and
    the sequence are read through the snapshot: the pair of what was read
    before the event and after it. *)
Definition snapshot_then_event (tr : ToolUsageTracker.t) (e : event)
    : M heap ((Dict.t Z * list string) * (Dict.t Z * list string)) :=
  st <- ToolUsageTracker.get_statistics tr ;;
  d <- load_dict (Statistics.tool_counts st) ;;
  l <- load_list (Statistics.tool_sequences st) ;;
  ToolUsageTracker.on_tool_start tr e.1 e.2 ;;;
  d' <- load_dict (Statistics.tool_counts st) ;;
  l' <- load_list (Statistics.tool_sequences st) ;;
  ret ((d, l), (d', l')).

(** [key] occurs in [query] up to the case of the letters A to Z: some
    contiguous part of [query] is [key] once lowered. *)
Definition matches (key query : string) : Prop :=
  ∃ a w b, query = a +:+ w +:+ b ∧ lower w = key.

(** A response echoes the input when the input occurs in it. *)
Definition echoes (input response : string) : bool := str_in input response.

(** A generator for running the random-selection tool on an example: a
    linear congruential sequence, reduced below the bound. *)
Definition lcg_randbelow (n : nat) (g : nat) : nat * nat :=
  ((g `mod` n)%nat, ((75 * g + 74) `mod` 4001)%nat).

(** The first [m] items of [pool] are pairwise distinct. *)
Definition distinct_below {A} (pool : list A) (m : nat) : Prop :=
  ∀ i i' x, (i < m)%nat → (i' < m)%nat →
    pool !! i = Some x → pool !! i' = Some x → i = i'.

(** ** The tool with a random response *)

Definition responses (complaint : string) : list string :=
  ["The Demogorgon tilts its head. It seems confused by '" +:+ complaint +:+ "'. Perhaps the issue is that you're thinking in three dimensions?";
   "The Demogorgon makes a sound that might be agreement. It suggests that the problem might be temporal - things work differently in the Upside Down's time.";
   "The Demogorgon appears to be eating something. It doesn't seem to understand the concept of '" +:+ complaint +:+ "' - maybe consistency isn't a priority there?"].

Section RandomChoice.

Variable rng : Type.
Variable randbelow : nat → rng → nat * rng.

(** [random.choice(seq)]: an empty sequence is refused, otherwise one
    index below its length is drawn. *)
Definition random_choice {A} (seq : list A) : M rng A :=
  if decide (List.length seq = 0%nat) then raise IndexError
  else j <- draw randbelow (List.length seq) ;; index seq j.

Definition consult_demogorgon (complaint : string) : M rng string :=
  random_choice (responses complaint).

End RandomChoice.

Arguments random_choice {rng} randbelow {A} seq.
Arguments consult_demogorgon {rng} randbelow complaint.

(** The state of the generator after one draw for each bound, in order. *)
Definition after_draws {rng : Type} (randbelow : nat → rng → nat * rng)
    (bounds : list nat) (g : rng) : rng :=
  foldl (λ g n, (randbelow n g).2) g bounds.

(** Two trackers are made in the same store, and events are delivered to
    the first one only. *)
Definition two_trackers (tools1 tools2 : list string) (evs : list event)
    : M heap (ToolUsageTracker.t * ToolUsageTracker.t) :=
  tr1 <- ToolUsageTracker.init tools1 ;;
  tr2 <- ToolUsageTracker.init tools2 ;;
  deliver tr1 evs ;;;
  ret (tr1, tr2).

(** * Properties *)

(** ** Dictionaries *)

Section DictFacts.
Context {V : Type}.
Implicit Types (d : Dict.t V) (k : string) (v : V).

Lemma get_None k d : Dict.get k d = None ↔ k ∉ Dict.keys d.
Proof.
  induction d as [|[k' v'] d IH]; simpl.
  - split; [intros _; apply not_elem_of_nil | done].
  - case_decide as Hk.
    + subst. split; [done | intros []; left].
    + rewrite IH, not_elem_of_cons. tauto.
Qed.

Lemma get_Some_keys k d : k ∈ Dict.keys d → is_Some (Dict.get k d).
Proof.
  intros Hin. destruct (Dict.get k d) eqn:E; [eauto|].
  by apply get_None in E.
Qed.

Lemma contains_true k d : Dict.contains k d = true ↔ k ∈ Dict.keys d.
Proof.
  unfold Dict.contains. destruct (Dict.get k d) eqn:E.
  - split; [|done]. intros _. destruct (decide (k ∈ Dict.keys d)); [done|].
    apply get_None in n. congruence.
  - apply get_None in E. split; [done | intros; contradiction].
Qed.

Lemma keys_set_in k v d : k ∈ Dict.keys d → Dict.keys (Dict.set k v d) = Dict.keys d.
Proof.
  induction d as [|[k' v'] d IH]; simpl.
  - by intros ?%elem_of_nil.
  - intros Hin. case_decide as Hk; simpl; [done|].
    f_equal. apply IH. apply elem_of_cons in Hin as [|]; [congruence | done].
Qed.

Lemma keys_set_notin k v d : k ∉ Dict.keys d → Dict.keys (Dict.set k v d) = Dict.keys d ++ [k].
Proof.
  induction d as [|[k' v'] d IH]; simpl; [done|].
  intros [Hne Hnin]%not_elem_of_cons.
  case_decide; [done|]. simpl. f_equal. by apply IH.
Qed.

Lemma get_set_eq k v d : Dict.get k (Dict.set k v d) = Some v.
Proof.
  induction d as [|[k' v'] d IH]; simpl.
  - by rewrite decide_True.
  - case_decide as Hk; simpl; [by rewrite decide_True | by rewrite decide_False].
Qed.

Lemma get_set_ne k k' v d : k ≠ k' → Dict.get k' (Dict.set k v d) = Dict.get k' d.
Proof.
  intros Hne. induction d as [|[k1 v1] d IH]; simpl.
  - by rewrite decide_False.
  - case_decide as Hk; simpl.
    + subst k1. by rewrite !decide_False.
    + case_decide; [done | apply IH].
Qed.

End DictFacts.

Lemma foldl_add_shift (a b : Z) xs : foldl Z.add (a + b) xs = a + foldl Z.add b xs.
Proof.
  revert b. induction xs as [|y xs IH]; intros b; simpl; [done|].
  by rewrite <- Z.add_assoc, IH.
Qed.

Lemma sum_cons x xs : sum (x :: xs) = x + sum xs.
Proof. unfold sum. simpl. rewrite (Z.add_comm 0 x). apply foldl_add_shift. Qed.

Lemma sum_values_set k c n (d : Dict.t Z) :
  Dict.get k d = Some c →
  sum (Dict.values (Dict.set k n d)) = sum (Dict.values d) - c + n.
Proof.
  unfold Dict.values.
  induction d as [|[k' v'] d IH]; csimpl; [done|].
  case_decide as Hk; csimpl.
  - intros [= ->]. rewrite !sum_cons. lia.
  - intros Hget. rewrite !sum_cons, IH by done. lia.
Qed.

(** ** The methods of the tracker, on the store *)

Import ToolUsageTracker.


Lemma holds_distinct h tr d l : holds h tr d l → usage_count tr ≠ tool_sequences tr.
Proof. intros [H1 H2] Heq. rewrite Heq in H1. congruence. Qed.

(** [__init__] allocates two new objects and touches nothing else. *)
Lemma init_spec (tools : list string) (h0 : heap) :
  ∃ tr,
    init tools h0 =
      (inr tr, <[tool_sequences tr := PList []]>
                 (<[usage_count tr := PDict (Dict.comprehension id (λ _, 0) tools)]> h0)) ∧
    (usage_count tr ∉ dom h0) ∧ (tool_sequences tr ∉ dom h0) ∧
    usage_count tr ≠ tool_sequences tr.
Proof.
  set (d0 := Dict.comprehension id (λ _, 0) tools).
  set (uc := fresh (dom h0)).
  set (ts := fresh (dom (<[uc := PDict d0]> h0))).
  exists (Build uc ts). simpl.
  assert (Huc : uc ∉ dom h0) by apply is_fresh.
  assert (Hts : ts ∉ dom (<[uc := PDict d0]> h0)) by apply is_fresh.
  rewrite dom_insert_L in Hts.
  repeat split; [set_solver.. ].
Qed.

Lemma init_holds (tools : list string) (h0 : heap) :
  ∃ tr h,
    init tools h0 = (inr tr, h) ∧
    holds h tr (Dict.comprehension id (λ _, 0) tools) [].
Proof.
  destruct (init_spec tools h0) as (tr & Hrun & _ & _ & Hne).
  eexists _, _. split; [exact Hrun|]. split.
  - by rewrite lookup_insert_ne, lookup_insert_eq.
  - by rewrite lookup_insert_eq.
Qed.

(** An event for a key of the dict: one count goes up, the name is
    appended, and the store changes at the two objects only. *)
Lemma on_tool_start_known h tr d l serialized input_str c :
  holds h tr d l →
  Dict.get (tool_name_of serialized) d = Some c →
  on_tool_start tr serialized input_str h =
    (inr (),
     <[tool_sequences tr := PList (l ++ [tool_name_of serialized])]>
       (<[usage_count tr := PDict (Dict.set (tool_name_of serialized) (c + 1) d)]> h)).
Proof.
  intros Hh Hget. pose proof (holds_distinct _ _ _ _ Hh) as Hne.
  destruct Hh as [Hd Hl].
  unfold on_tool_start, dict_contains, dict_iadd, list_append, bind, load_dict,
    load_list, store, ret, Dict.contains, Dict.getitem.
  rewrite Hd, Hget. simpl. rewrite Hd, Hget. simpl.
  by rewrite lookup_insert_ne, Hl.
Qed.

(** An event for any other name: nothing is raised, nothing is written. *)
Lemma on_tool_start_unknown h tr d l serialized input_str :
  holds h tr d l →
  Dict.get (tool_name_of serialized) d = None →
  on_tool_start tr serialized input_str h = (inr (), h).
Proof.
  intros [Hd Hl] Hget.
  unfold on_tool_start, dict_contains, bind, load_dict, ret, Dict.contains.
  by rewrite Hd, Hget.
Qed.

Lemma holds_update h tr d l d' l' :
  holds h tr d l →
  holds (<[tool_sequences tr := PList l']> (<[usage_count tr := PDict d']> h)) tr d' l'.
Proof.
  intros Hh. pose proof (holds_distinct _ _ _ _ Hh) as Hne. split.
  - by rewrite lookup_insert_ne, lookup_insert_eq.
  - by rewrite lookup_insert_eq.
Qed.

(** One event moves the tracker by [step]. *)
Lemma on_tool_start_step h tr d l e :
  holds h tr d l →
  ∃ h', on_tool_start tr e.1 e.2 h = (inr (), h') ∧
        holds h' tr (step (d, l) (event_name e)).1 (step (d, l) (event_name e)).2.
Proof.
  intros Hh. unfold step, event_name. simpl.
  destruct (Dict.get (tool_name_of e.1) d) as [c|] eqn:Hget; simpl.
  - eexists. split; [by apply (on_tool_start_known h tr d l)|].
    by apply (holds_update h tr d l).
  - exists h. split; [by apply (on_tool_start_unknown h tr d l) | done].
Qed.

(** A run of events moves the tracker by the fold of [step]. *)
Lemma deliver_spec tr evs : ∀ h d l,
  holds h tr d l →
  ∃ h', deliver tr evs h = (inr (), h') ∧
        holds h' tr (foldl step (d, l) (event_name <$> evs)).1
                    (foldl step (d, l) (event_name <$> evs)).2.
Proof.
  induction evs as [|e evs IH]; intros h d l Hh; csimpl.
  - by exists h.
  - destruct (on_tool_start_step _ _ _ _ e Hh) as (h1 & Hrun & Hh1).
    destruct (step (d, l) (event_name e)) as [d1 l1] eqn:Hstep.
    destruct (IH _ _ _ Hh1) as (h2 & Hrun2 & Hh2).
    exists h2. split; [|done].
    unfold deliver in *. simpl. unfold bind at 1. by rewrite Hrun.
Qed.

Lemma session_spec (tools : list string) evs h0 :
  ∃ tr h,
    session tools evs h0 = (inr tr, h) ∧
    holds h tr
      (foldl step (Dict.comprehension id (λ _, 0) tools, []) (event_name <$> evs)).1
      (foldl step (Dict.comprehension id (λ _, 0) tools, []) (event_name <$> evs)).2.
Proof.
  destruct (init_holds tools h0) as (tr & h1 & Hinit & Hh1).
  destruct (deliver_spec tr evs _ _ _ Hh1) as (h2 & Hrun & Hh2).
  exists tr, h2. split; [|done].
  unfold session, bind. by rewrite Hinit, Hrun.
Qed.

(** [get_statistics] reads the dict and writes nothing. *)
Lemma get_statistics_spec h tr d l :
  holds h tr d l →
  get_statistics tr h =
    (inr (Statistics.Build (sum (Dict.values d)) (usage_count tr)
            (most_used_of d) (tool_sequences tr)), h).
Proof.
  intros [Hd Hl].
  unfold get_statistics, bind, load_dict, ret. rewrite Hd. simpl. rewrite Hd.
  by destruct d.
Qed.

(** ** The dict built by [__init__] *)

Lemma set_all_zero k d : all_zero d → all_zero (Dict.set k 0 d).
Proof.
  unfold all_zero. induction 1 as [|[k' v'] d Hx Hd IH]; simpl.
  - by repeat constructor.
  - case_decide; constructor; done.
Qed.

Lemma set_NoDup {V} k (v : V) d : NoDup (Dict.keys d) → NoDup (Dict.keys (Dict.set k v d)).
Proof.
  intros Hnd. destruct (decide (k ∈ Dict.keys d)) as [Hin|Hnin].
  - by rewrite keys_set_in.
  - rewrite keys_set_notin by done. apply NoDup_app. repeat split; [done| |apply NoDup_singleton].
    intros x Hx ->%list_elem_of_singleton. done.
Qed.

Lemma set_head {V} k (v : V) d : d ≠ [] → head (Dict.keys (Dict.set k v d)) = head (Dict.keys d).
Proof. destruct d as [|[k' v'] d]; [done|]. intros _. simpl. by case_decide. Qed.

Lemma set_nonempty {V} k (v : V) d : Dict.set k v d ≠ [].
Proof. destruct d as [|[k' v'] d]; simpl; [done|]. by case_decide. Qed.

Section Comprehension.
(** The accumulating loop of [{tool.name: 0 for tool in tools}]. *)
Local Abbreviation fill acc xs :=
  (foldl (λ (d : Dict.t Z) (x : string), Dict.set (id x) 0 d) acc xs).

Lemma fill_keys xs : ∀ acc,
  list_to_set (Dict.keys (fill acc xs)) =@{gset string}
    list_to_set (Dict.keys acc) ∪ list_to_set xs.
Proof.
  induction xs as [|x xs IH]; intros acc; simpl.
  - set_solver.
  - rewrite IH. unfold id. destruct (decide (x ∈ Dict.keys acc)) as [Hin|Hnin].
    + rewrite keys_set_in by done.
      apply (elem_of_list_to_set (C := gset string)) in Hin. set_solver.
    + rewrite keys_set_notin, list_to_set_app_L by done. set_solver.
Qed.

Lemma fill_all_zero xs : ∀ acc, all_zero acc → all_zero (fill acc xs).
Proof.
  induction xs as [|x xs IH]; intros acc Hz; simpl; [done|].
  by apply IH, set_all_zero.
Qed.

Lemma fill_NoDup xs : ∀ acc, NoDup (Dict.keys acc) → NoDup (Dict.keys (fill acc xs)).
Proof.
  induction xs as [|x xs IH]; intros acc Hz; simpl; [done|].
  by apply IH, set_NoDup.
Qed.

Lemma fill_head xs : ∀ acc, acc ≠ [] → head (Dict.keys (fill acc xs)) = head (Dict.keys acc).
Proof.
  induction xs as [|x xs IH]; intros acc Hne; simpl; [done|].
  rewrite IH by apply set_nonempty. by apply set_head.
Qed.

(** Distinct new names are added at the end, in order. *)
Lemma fill_fresh xs : ∀ acc,
  NoDup xs → (∀ x, x ∈ xs → x ∉ Dict.keys acc) →
  fill acc xs = acc ++ ((λ t, (t, 0)) <$> xs).
Proof.
  induction xs as [|x xs IH]; intros acc Hnd Hfresh.
  - simpl. by rewrite app_nil_r.
  - apply NoDup_cons in Hnd as [Hx Hnd].
    change (fill acc (x :: xs)) with (fill (Dict.set x 0 acc) xs).
    rewrite fmap_cons.
    assert (Hset : Dict.set x 0 acc = acc ++ [(x, 0)]).
    { clear -Hfresh.
      assert (Hnin : x ∉ Dict.keys acc) by (apply Hfresh; left).
      clear Hfresh. induction acc as [|[k v] acc IH]; simpl; [done|].
      apply not_elem_of_cons in Hnin as [Hne Hnin]. simpl in Hne.
      rewrite decide_False by done. f_equal. by apply IH. }
    rewrite Hset, IH, <- app_assoc; [done..|].
    intros y Hy. unfold Dict.keys. rewrite fmap_app, elem_of_app. simpl.
    intros [Hin| ->%list_elem_of_singleton]; [|done].
    eapply Hfresh; [|exact Hin]. by right.
Qed.

Lemma comprehension_keys (tools : list string) :
  list_to_set (Dict.keys (Dict.comprehension id (λ _, 0) tools)) =@{gset string}
    list_to_set tools.
Proof. unfold Dict.comprehension. rewrite (fill_keys tools []). set_solver. Qed.

Lemma comprehension_all_zero (tools : list string) :
  all_zero (Dict.comprehension id (λ _, 0) tools).
Proof. apply (fill_all_zero tools []). constructor. Qed.

Lemma comprehension_NoDup (tools : list string) :
  NoDup (Dict.keys (Dict.comprehension id (λ _, 0) tools)).
Proof. apply (fill_NoDup tools []). constructor. Qed.

Lemma comprehension_head (tools : list string) :
  head (Dict.keys (Dict.comprehension id (λ _, 0) tools)) = head tools.
Proof.
  destruct tools as [|x xs]; [done|].
  unfold Dict.comprehension. cbn [foldl].
  by rewrite fill_head by apply set_nonempty.
Qed.

Lemma comprehension_distinct (tools : list string) :
  NoDup tools →
  Dict.comprehension id (λ _, 0) tools = (λ t, (t, 0)) <$> tools.
Proof.
  intros Hnd. unfold Dict.comprehension.
  rewrite (fill_fresh tools []); [done..|].
  intros x _. apply not_elem_of_nil.
Qed.

End Comprehension.

Lemma all_zero_sum d : all_zero d → sum (Dict.values d) = 0.
Proof.
  unfold Dict.values. induction 1 as [|[k v] d Hx Hd IH]; csimpl; [done|].
  simpl in Hx. rewrite sum_cons, IH. lia.
Qed.

(** ** [max] over the items *)

Lemma max_loop_keep best rest :
  Forall (λ x, x.2 ≤ best.2) rest → max_loop best rest = best.
Proof.
  induction 1 as [|x rest Hx Hrest IH]; simpl; [done|].
  destruct (Z.ltb_spec best.2 x.2); [lia | done].
Qed.

Lemma max_loop_first best l1 x l2 :
  Forall (λ y, y.2 < x.2) l1 → best.2 < x.2 →
  Forall (λ y, y.2 ≤ x.2) l2 →
  max_loop best (l1 ++ x :: l2) = x.
Proof.
  intros H1 Hb H2. revert best Hb.
  induction H1 as [|y l1 Hy Hl1 IH]; intros best Hb; simpl.
  - destruct (Z.ltb_spec best.2 x.2); [|lia]. by apply max_loop_keep.
  - destruct (Z.ltb_spec best.2 y.2); by apply IH.
Qed.

(** The item picked by [most_used]: the first one, in the order of the
    dict, whose count no other item exceeds. *)
Lemma most_used_of_first l1 k c l2 :
  Forall (λ y, y.2 < c) l1 → Forall (λ y, y.2 ≤ c) l2 →
  most_used_of (l1 ++ (k, c) :: l2) = Some k.
Proof.
  intros H1 H2. destruct l1 as [|b l1]; simpl.
  - by rewrite max_loop_keep.
  - apply Forall_cons in H1 as [Hb H1].
    by rewrite (max_loop_first b l1 (k, c) l2).
Qed.

Lemma most_used_of_all_zero d : all_zero d → most_used_of d = head (Dict.keys d).
Proof.
  destruct d as [|[k v] d]; [done|]. intros [Hk Hd]%Forall_cons. simpl in *.
  rewrite max_loop_keep; [done|]. simpl.
  eapply Forall_impl; [exact Hd|]. simpl. intros x ->. lia.
Qed.

(** ** Runs of events, without the store *)

Lemma len_app {A} (xs ys : list A) : len (xs ++ ys) = len xs + len ys.
Proof. unfold len. rewrite length_app. lia. Qed.

Lemma step_keys st name : Dict.keys (step st name).1 = Dict.keys st.1.
Proof.
  unfold step. destruct (Dict.get name st.1) eqn:Hget; [|done]. simpl.
  apply keys_set_in. destruct (decide (name ∈ Dict.keys st.1)); [done|].
  apply get_None in n. congruence.
Qed.

Lemma step_balance st name :
  sum (Dict.values (step st name).1) - len (step st name).2 =
  sum (Dict.values st.1) - len st.2.
Proof.
  unfold step. destruct (Dict.get name st.1) as [c|] eqn:Hget; [|done]. simpl.
  rewrite (sum_values_set _ c) by done. rewrite len_app. unfold len. simpl. lia.
Qed.

Lemma run_keys names : ∀ st, Dict.keys (foldl step st names).1 = Dict.keys st.1.
Proof.
  induction names as [|n names IH]; intros st; simpl; [done|].
  by rewrite IH, step_keys.
Qed.

Lemma run_balance names : ∀ st,
  sum (Dict.values (foldl step st names).1) - len (foldl step st names).2 =
  sum (Dict.values st.1) - len st.2.
Proof.
  induction names as [|n names IH]; intros st; simpl; [done|].
  by rewrite IH, step_balance.
Qed.

(** When every name is a key, every event is recorded. *)
Lemma run_all_known names : ∀ d l,
  Forall (λ n, n ∈ Dict.keys d) names →
  (foldl step (d, l) names).2 = l ++ names.
Proof.
  induction names as [|n names IH]; intros d l Hall; simpl.
  - by rewrite app_nil_r.
  - apply Forall_cons in Hall as [Hn Hall].
    destruct (get_Some_keys _ _ Hn) as [c Hc].
    unfold step at 2. simpl. rewrite Hc.
    rewrite IH, <- app_assoc; [done|].
    eapply Forall_impl; [exact Hall|]. intros x Hx. simpl in Hx.
    by rewrite keys_set_in.
Qed.

Lemma table_keys f ts : Dict.keys (table f ts) = ts.
Proof.
  unfold Dict.keys, table. rewrite <- list_fmap_compose.
  induction ts as [|t ts IH]; csimpl; [done|]. by rewrite IH.
Qed.

Lemma table_get f ts t : t ∈ ts → Dict.get t (table f ts) = Some (f t).
Proof.
  induction ts as [|t' ts IH]; [by intros ?%elem_of_nil|].
  intros Hin. unfold table. csimpl. case_decide as Ht; [by subst|].
  apply IH. apply elem_of_cons in Hin as [|]; [congruence | done].
Qed.

Lemma table_ext f g ts : (∀ t, t ∈ ts → f t = g t) → table f ts = table g ts.
Proof.
  intros Hfg. unfold table. apply list_fmap_ext. intros i t Hi.
  f_equal. apply Hfg. by eapply list_elem_of_lookup_2.
Qed.

Lemma table_set f ts t v :
  NoDup ts → t ∈ ts →
  Dict.set t v (table f ts) = table (λ x, if decide (x = t) then v else f x) ts.
Proof.
  induction ts as [|t' ts IH]; [by intros _ ?%elem_of_nil|].
  intros [Hnin Hnd]%NoDup_cons Hin. unfold table. csimpl. case_decide as Ht.
  - subst t'. rewrite decide_True by done. f_equal.
    apply table_ext. intros x Hx. rewrite decide_False; [done|]. by intros ->.
  - rewrite decide_False by done. f_equal. apply IH; [done|].
    apply elem_of_cons in Hin as [|]; [congruence | done].
Qed.

Lemma occurrences_cons t n names :
  occurrences t (n :: names) = (if decide (n = t) then 1 else 0) + occurrences t names.
Proof.
  unfold occurrences, len. rewrite filter_cons. case_decide; simpl; lia.
Qed.

(** With distinct keys, a run adds to every count the number of events
    that name its key, and keeps the keys in their order. *)
Lemma run_table ts names : ∀ f l,
  NoDup ts →
  (foldl step (table f ts, l) names).1 = table (λ t, f t + occurrences t names) ts.
Proof.
  induction names as [|n names IH]; intros f l Hnd; simpl.
  - apply table_ext. intros t _. unfold occurrences, len. simpl. lia.
  - unfold step at 2. simpl. destruct (decide (n ∈ ts)) as [Hin|Hnin].
    + rewrite table_get, table_set, IH by done.
      apply table_ext. intros t Ht. rewrite occurrences_cons.
      repeat case_decide; subst; try done; lia.
    + assert (Hget : Dict.get n (table f ts) = None).
      { apply get_None. by rewrite table_keys. }
      rewrite Hget, IH by done.
      apply table_ext. intros t Ht. rewrite occurrences_cons.
      case_decide; [by subst | lia].
Qed.

(** After a session over distinct names the keys of the dict are the
    registry, in its order. *)
Lemma session_keys (tools : list string) evs h0 :
  NoDup tools →
  ∃ tr h d l,
    session tools evs h0 = (inr tr, h) ∧ holds h tr d l ∧ Dict.keys d = tools.
Proof.
  intros Hnd. destruct (session_spec tools evs h0) as (tr & h & Hrun & Hh).
  eexists tr, h, _, _. split; [exact Hrun|]. split; [exact Hh|].
  rewrite run_keys. simpl. rewrite comprehension_distinct by done.
  apply (table_keys (λ _, 0)).
Qed.

(** * The tracker *)

(** C1. After construction over any registry and any sequence of
    [on_tool_start] calls, the counts add up to the length of the recorded
    sequence, and the keys of [usage_count] are the registered names; when
    every event names a registered tool, both the sum of the counts and the
    length of the sequence equal the number of events. *)
Theorem tracker_sum_invariant (tools : list string) (evs : list event) (h0 : heap) :
  ∃ tr h d l,
    session tools evs h0 = (inr tr, h) ∧
    holds h tr d l ∧
    sum (Dict.values d) = len l ∧
    list_to_set (Dict.keys d) =@{gset string} list_to_set tools ∧
    (Forall (λ e, event_name e ∈ tools) evs →
     sum (Dict.values d) = len evs ∧ len l = len evs).
Proof.
  destruct (session_spec tools evs h0) as (tr & h & Hrun & Hh).
  set (d0 := Dict.comprehension id (λ _, 0) tools) in *.
  set (names := event_name <$> evs) in *.
  pose proof (run_balance names (d0, [])) as Hbal.
  pose proof (run_keys names (d0, [])) as Hkeys.
  simpl in Hbal, Hkeys.
  rewrite (all_zero_sum d0) in Hbal by apply comprehension_all_zero.
  assert (Hsum : sum (Dict.values (foldl step (d0, []) names).1) =
                 len (foldl step (d0, []) names).2).
  { unfold len in *. simpl in Hbal. lia. }
  eexists tr, h, _, _. split; [exact Hrun|]. split; [exact Hh|].
  split; [exact Hsum|]. split.
  - rewrite Hkeys. apply comprehension_keys.
  - intros Hall. rewrite Hsum.
    rewrite (run_all_known names d0 []).
    + unfold len, names. simpl. by rewrite length_fmap.
    + unfold names. apply Forall_fmap. eapply Forall_impl; [exact Hall|].
      intros e He. simpl.
      apply (elem_of_list_to_set (C := gset string)). unfold d0.
      rewrite comprehension_keys. by apply elem_of_list_to_set.
Qed.

Lemma tracker_sum_invariant_witness :
  ∃ tr h d l,
    session tools [named "gather_party_wisdom"; named "consult_demogorgon"] ∅ = (inr tr, h) ∧
    holds h tr d l ∧ sum (Dict.values d) = 2 ∧ len l = 2.
Proof.
  destruct (tracker_sum_invariant tools
              [named "gather_party_wisdom"; named "consult_demogorgon"] ∅)
    as (tr & h & d & l & Hrun & Hh & _ & _ & Hall).
  exists tr, h, d, l. split; [exact Hrun|]. split; [exact Hh|].
  apply Hall. apply (bool_decide_unpack _). vm_compute. reflexivity.
Defined.

(** C2. An event whose tool name is a key of [usage_count] raises that
    count by one, leaves every other count and the order of the keys as
    they were, and appends the name to the sequence; no other object of the
    store changes.  Over the registry a, b, c the events a, b, a, c, a give
    the counts a:3, b:1, c:1, most_used a, the sequence a, b, a, c, a and
    5 calls in total. *)
Theorem on_tool_start_registered :
  (∀ h tr d l serialized input_str,
     holds h tr d l →
     tool_name_of serialized ∈ Dict.keys d →
     ∃ c h' d',
       Dict.get (tool_name_of serialized) d = Some c ∧
       on_tool_start tr serialized input_str h = (inr (), h') ∧
       holds h' tr d' (l ++ [tool_name_of serialized]) ∧
       Dict.get (tool_name_of serialized) d' = Some (c + 1) ∧
       (∀ k, k ≠ tool_name_of serialized → Dict.get k d' = Dict.get k d) ∧
       Dict.keys d' = Dict.keys d ∧
       (∀ a, a ≠ usage_count tr → a ≠ tool_sequences tr → h' !! a = h !! a)) ∧
  (∀ h0, ∃ tr h st,
     session ["a"; "b"; "c"] (named <$> ["a"; "b"; "a"; "c"; "a"]) h0 = (inr tr, h) ∧
     holds h tr [("a", 3); ("b", 1); ("c", 1)] ["a"; "b"; "a"; "c"; "a"] ∧
     get_statistics tr h = (inr st, h) ∧
     Statistics.total_tool_calls st = 5 ∧
     Statistics.most_used st = Some "a" ∧
     Statistics.tool_counts st = usage_count tr ∧
     Statistics.tool_sequences st = tool_sequences tr).
Proof.
  split.
  - intros h tr d l serialized input_str Hh Hin.
    destruct (get_Some_keys _ _ Hin) as [c Hc].
    eexists c, _, _. split; [exact Hc|].
    split; [by apply (on_tool_start_known h tr d l)|].
    split; [by apply (holds_update h tr d l)|].
    split; [apply get_set_eq|].
    split; [intros k Hk; by apply get_set_ne|].
    split; [by apply keys_set_in|].
    intros a Ha1 Ha2. by rewrite !lookup_insert_ne.
  - intros h0.
    destruct (session_spec ["a"; "b"; "c"] (named <$> ["a"; "b"; "a"; "c"; "a"]) h0)
      as (tr & h & Hrun & Hh).
    vm_compute in Hh.
    eexists tr, h, _. split; [exact Hrun|]. split; [exact Hh|].
    split; [by apply (get_statistics_spec h tr _ _ Hh)|]. done.
Qed.

Lemma on_tool_start_registered_witness :
  let h : heap := {[ 1%positive := PDict [("a", 0); ("b", 4)]; 2%positive := PList ["b"] ]} in
  let tr := Build 1%positive 2%positive in
  ∃ h', on_tool_start tr {["name" := "b"]} "query" h = (inr (), h') ∧
        holds h' tr [("a", 0); ("b", 5)] ["b"; "b"].
Proof.
  intros h tr.
  destruct (proj1 on_tool_start_registered h tr [("a", 0); ("b", 4)] ["b"]
              {["name" := "b"]} "query")
    as (c & h' & d' & Hc & Hrun & Hh & _).
  - split; reflexivity.
  - apply (bool_decide_unpack _). vm_compute. reflexivity.
  - exists h'. split; [exact Hrun|].
    vm_compute in Hc. injection Hc as <-.
    rewrite (on_tool_start_known h tr [("a", 0); ("b", 4)] ["b"] _ _ 4) in Hrun;
      [|split; reflexivity|reflexivity].
    injection Hrun as <-. split; reflexivity.
Defined.

(** C3. An event whose tool name is not a key of [usage_count] returns
    normally and leaves the whole store, hence the counts and the sequence,
    as it was. *)
Theorem on_tool_start_unregistered h tr d l serialized input_str :
  holds h tr d l →
  tool_name_of serialized ∉ Dict.keys d →
  on_tool_start tr serialized input_str h = (inr (), h) ∧ holds h tr d l.
Proof.
  intros Hh Hnin. split; [|done].
  apply (on_tool_start_unknown h tr d l); [done|]. by apply get_None.
Qed.

Lemma on_tool_start_unregistered_witness :
  let h : heap := {[ 1%positive := PDict [("a", 2); ("b", 1)]; 2%positive := PList ["a"; "b"; "a"] ]} in
  on_tool_start (Build 1%positive 2%positive) {["name" := "z"]} "query" h = (inr (), h) ∧
  holds h (Build 1%positive 2%positive) [("a", 2); ("b", 1)] ["a"; "b"; "a"].
Proof.
  intros h.
  apply (on_tool_start_unregistered h (Build 1%positive 2%positive) [("a", 2); ("b", 1)] ["a"; "b"; "a"]).
  - split; reflexivity.
  - apply (bool_decide_unpack _). vm_compute. reflexivity.
Defined.

(** C4, as the code has it.  On a tracker that has seen no event the
    statistics are: no call in total, an empty sequence, and for most_used
    the first name of the registry; most_used is None only over an empty
    registry. *)
Theorem fresh_statistics_spec (tools : list string) (h0 : heap) :
  ∃ st h,
    fresh_statistics tools h0 = (inr st, h) ∧
    Statistics.total_tool_calls st = 0 ∧
    load_list (Statistics.tool_sequences st) h = (inr [], h) ∧
    Statistics.most_used st = head tools ∧
    (Statistics.most_used st = None ↔ tools = []).
Proof.
  destruct (init_holds tools h0) as (tr & h & Hinit & Hh).
  pose proof (get_statistics_spec _ _ _ _ Hh) as Hstat.
  eexists _, h. split.
  { unfold fresh_statistics, bind. rewrite Hinit. exact Hstat. }
  simpl. split; [apply all_zero_sum, comprehension_all_zero|].
  split; [unfold load_list; by rewrite (proj2 Hh)|].
  rewrite most_used_of_all_zero by apply comprehension_all_zero.
  rewrite comprehension_head. split; [done|]. by destruct tools.
Qed.

(** C4 as stated fails: over the four tools of the script a tracker that
    has seen no event reports the first tool as most_used, not None. *)
Lemma fresh_most_used_counterexample :
  ¬ ∃ st h,
      fresh_statistics tools ∅ = (inr st, h) ∧
      Statistics.total_tool_calls st = 0 ∧
      Statistics.most_used st = None ∧
      load_list (Statistics.tool_sequences st) h = (inr [], h).
Proof.
  intros (st & h & Hrun & _ & Hnone & _).
  vm_compute in Hrun. injection Hrun as <- <-. discriminate Hnone.
Qed.

(** C6, as the code has it.  [get_statistics] writes nothing; the total and
    most_used are computed when it is called, but tool_counts and
    tool_sequences are the dict and the list of the tracker themselves, so
    what is read through an earlier snapshot after one more event is the
    state of the tracker after that event. *)
Theorem get_statistics_pure_read h tr d l :
  holds h tr d l →
  ∃ st,
    get_statistics tr h = (inr st, h) ∧
    Statistics.total_tool_calls st = sum (Dict.values d) ∧
    Statistics.most_used st = most_used_of d ∧
    Statistics.tool_counts st = usage_count tr ∧
    Statistics.tool_sequences st = tool_sequences tr ∧
    ∀ e, ∃ h',
      on_tool_start tr e.1 e.2 h = (inr (), h') ∧
      load_dict (Statistics.tool_counts st) h' = (inr (step (d, l) (event_name e)).1, h') ∧
      load_list (Statistics.tool_sequences st) h' = (inr (step (d, l) (event_name e)).2, h').
Proof.
  intros Hh. eexists. split; [by apply (get_statistics_spec h tr d l)|].
  simpl. do 4 (split; [done|]). intros e.
  destruct (on_tool_start_step h tr d l e Hh) as (h' & Hrun & [Hd Hl]).
  exists h'. split; [exact Hrun|].
  unfold load_dict, load_list. by rewrite Hd, Hl.
Qed.

Lemma get_statistics_pure_read_witness :
  let h : heap := {[ 1%positive := PDict [("a", 1); ("b", 0)]; 2%positive := PList ["a"] ]} in
  ∃ st, get_statistics (Build 1%positive 2%positive) h = (inr st, h) ∧
        Statistics.total_tool_calls st = 1 ∧
        Statistics.most_used st = Some "a".
Proof.
  intros h.
  destruct (get_statistics_pure_read h (Build 1%positive 2%positive) [("a", 1); ("b", 0)] ["a"])
    as (st & Hrun & Htotal & Hmost & _).
  - split; reflexivity.
  - exists st. split; [exact Hrun|]. split; [exact Htotal | exact Hmost].
Defined.

(** C6 as stated fails: the counts and the sequence read through a
    snapshot change when a later event is delivered. *)
Lemma snapshot_alias_counterexample :
  ∃ before after,
    ((tr <- init tools ;;
      snapshot_then_event tr (named "check_hawkins_records")) ∅).1
      = inr (before, after) ∧
    Dict.get "check_hawkins_records" before.1 = Some 0 ∧
    Dict.get "check_hawkins_records" after.1 = Some 1 ∧
    before.2 = [] ∧ after.2 = ["check_hawkins_records"] ∧
    before ≠ after.
Proof.
  eexists _, _. split; [vm_compute; reflexivity|].
  repeat split; discriminate.
Qed.

(** C7. Over a registry of distinct names, when the tool [a] has the
    greatest number of calls and every tool registered before it has
    strictly fewer, most_used is [a]: among tools tied for the maximum the
    first in registration order wins, whatever the order of the events. *)
Theorem most_used_first_registered (tools : list string) (evs : list event)
    (h0 : heap) (pre post : list string) (a : string) :
  NoDup tools →
  tools = pre ++ a :: post →
  (∀ t, t ∈ pre → calls_of t evs < calls_of a evs) →
  (∀ t, t ∈ post → calls_of t evs ≤ calls_of a evs) →
  ∃ tr h st,
    session tools evs h0 = (inr tr, h) ∧
    get_statistics tr h = (inr st, h) ∧
    Statistics.most_used st = Some a.
Proof.
  intros Hnd -> Hpre Hpost.
  destruct (session_spec (pre ++ a :: post) evs h0) as (tr & h & Hrun & Hh).
  eexists tr, h, _. split; [exact Hrun|].
  split; [by apply (get_statistics_spec _ _ _ _ Hh)|]. simpl.
  rewrite comprehension_distinct by done.
  change ((λ t : string, (t, 0)) <$> pre ++ a :: post)
    with (table (λ _, 0) (pre ++ a :: post)).
  rewrite run_table by done.
  unfold table. rewrite fmap_app, fmap_cons.
  apply most_used_of_first; apply Forall_fmap, Forall_forall; intros t Ht; simpl.
  - specialize (Hpre t Ht). unfold calls_of, occurrences in *. lia.
  - specialize (Hpost t Ht). unfold calls_of, occurrences in *. lia.
Qed.

Lemma most_used_first_registered_witness :
  ∃ tr h st,
    session ["a"; "b"] (named <$> ["b"; "a"; "b"; "a"]) ∅ = (inr tr, h) ∧
    get_statistics tr h = (inr st, h) ∧
    Statistics.most_used st = Some "a" ∧
    calls_of "a" (named <$> ["b"; "a"; "b"; "a"]) = 2 ∧
    calls_of "b" (named <$> ["b"; "a"; "b"; "a"]) = 2.
Proof.
  destruct (most_used_first_registered ["a"; "b"] (named <$> ["b"; "a"; "b"; "a"])
              ∅ [] ["b"] "a")
    as (tr & h & st & Hrun & Hstat & Hmost).
  - apply (bool_decide_unpack _). vm_compute. reflexivity.
  - reflexivity.
  - intros t Ht. by apply elem_of_nil in Ht.
  - intros t Ht. apply list_elem_of_singleton in Ht as ->. vm_compute. discriminate.
  - exists tr, h, st. repeat split; [exact Hrun | exact Hstat | exact Hmost].
Defined.

(** C10. A payload without a ["name"] entry is treated as the name
    ["unknown"], which is none of the four tools of the script: on every
    tracker whose keys are those tools, and so on the tracker of the script
    after any events, the call returns normally and leaves the whole store
    as it was. *)
Theorem on_tool_start_without_name (serialized : gmap string string) input_str :
  serialized !! "name" = None →
  tool_name_of serialized = "unknown" ∧
  ("unknown" ∉ tools) ∧
  (∀ h tr d l,
     holds h tr d l → Dict.keys d = tools →
     on_tool_start tr serialized input_str h = (inr (), h)) ∧
  (∀ evs h0, ∃ tr h d l,
     session tools evs h0 = (inr tr, h) ∧
     holds h tr d l ∧
     on_tool_start tr serialized input_str h = (inr (), h)).
Proof.
  intros Hname.
  assert (Hunk : tool_name_of serialized = "unknown").
  { unfold tool_name_of. by rewrite Hname. }
  assert (Hnin : "unknown" ∉ tools).
  { apply (bool_decide_unpack _). vm_compute. reflexivity. }
  assert (Hstate : ∀ h tr d l,
            holds h tr d l → Dict.keys d = tools →
            on_tool_start tr serialized input_str h = (inr (), h)).
  { intros h tr d l Hh Hkeys. apply (on_tool_start_unknown h tr d l); [done|].
    rewrite Hunk. apply get_None. by rewrite Hkeys. }
  split; [done|]. split; [done|]. split; [done|].
  intros evs h0.
  destruct (session_keys tools evs h0) as (tr & h & d & l & Hrun & Hh & Hkeys).
  { apply (bool_decide_unpack _). vm_compute. reflexivity. }
  exists tr, h, d, l. split; [done|]. split; [done|]. by apply (Hstate h tr d l).
Qed.

Lemma on_tool_start_without_name_witness :
  let h : heap :=
    {[ 1%positive := PDict [("consult_demogorgon", 1); ("check_hawkins_records", 0);
                            ("cast_interdimensional_spell", 0); ("gather_party_wisdom", 2)];
       2%positive := PList ["gather_party_wisdom"; "consult_demogorgon"; "gather_party_wisdom"] ]} in
  on_tool_start (Build 1%positive 2%positive) {["id" := "tool"]} "query" h = (inr (), h).
Proof.
  intros h.
  refine (proj1 (proj2 (proj2
    (on_tool_start_without_name {["id" := "tool"]} "query" _)))
    h (Build 1%positive 2%positive)
    [("consult_demogorgon", 1); ("check_hawkins_records", 0);
     ("cast_interdimensional_spell", 0); ("gather_party_wisdom", 2)]
    ["gather_party_wisdom"; "consult_demogorgon"; "gather_party_wisdom"] _ _).
  - reflexivity.
  - split; reflexivity.
  - reflexivity.
Defined.

(** * The tools *)

(** ** Strings *)

Lemma app_String c a b : String c a +:+ b = String c (a +:+ b).
Proof. reflexivity. Qed.

Lemma app_empty b : EmptyString +:+ b = b.
Proof. reflexivity. Qed.

Lemma startswith_spec p : ∀ s, startswith p s = true ↔ ∃ b, s = p +:+ b.
Proof.
  induction p as [|a p IH]; intros s; simpl.
  - split; [eauto | done].
  - destruct s as [|c s].
    + split; [done | by intros [b Hb]].
    + setoid_rewrite app_String. case_decide as Hac.
      * subst c. rewrite IH. split; intros [b Hb]; exists b; congruence.
      * split; [done | intros [b Hb]; congruence].
Qed.

Lemma str_in_spec k : ∀ s, str_in k s = true ↔ ∃ a b, s = a +:+ k +:+ b.
Proof.
  induction s as [|c s IH]; simpl; rewrite orb_true_iff, startswith_spec.
  - split.
    + intros [[b Hb]|]; [|done]. by exists EmptyString, b.
    + intros (a & b & Hab). left. destruct a; [by exists b | done].
  - rewrite IH. split.
    + intros [[b Hb]|(a & b & Hab)].
      * by exists EmptyString, b.
      * exists (String c a), b. by rewrite app_String, Hab.
    + intros (a & b & Hab). destruct a as [|c' a].
      * left. by exists b.
      * right. exists a, b. rewrite app_String in Hab. congruence.
Qed.

Lemma lower_app a b : lower (a +:+ b) = lower a +:+ lower b.
Proof.
  induction a as [|c a IH]; [done|].
  rewrite app_String. simpl. by rewrite app_String, IH.
Qed.

Lemma lower_app_inv x : ∀ q y,
  lower q = x +:+ y → ∃ q1 q2, q = q1 +:+ q2 ∧ lower q1 = x ∧ lower q2 = y.
Proof.
  induction x as [|c x IH]; intros q y Hq.
  - by exists EmptyString, q.
  - rewrite app_String in Hq.
    destruct q as [|c' q]; [done|]. simpl in Hq. injection Hq as Hc Hq.
    destruct (IH _ _ Hq) as (q1 & q2 & -> & <- & <-).
    exists (String c' q1), q2. simpl. by rewrite Hc.
Qed.

(** The test of the two tools, [key in query.lower()], is a substring test
    that ignores the case of the query. *)
Lemma str_in_lower key query : str_in key (lower query) = true ↔ matches key query.
Proof.
  rewrite str_in_spec. unfold matches. split.
  - intros (a & b & Hab).
    apply lower_app_inv in Hab as (qa & q' & -> & <- & Hq').
    apply lower_app_inv in Hq' as (w & qb & -> & <- & <-).
    by exists qa, w, qb.
  - intros (a & w & b & -> & <-). exists (lower a), (lower b).
    by rewrite !lower_app.
Qed.

Lemma str_in_lower_false key query : str_in key (lower query) = false ↔ ¬ matches key query.
Proof. rewrite <- str_in_lower. by destruct (str_in key (lower query)). Qed.

(** ** The lookup loop *)

Lemma first_match_first l1 k v l2 text :
  Forall (λ kv, str_in kv.1 text = false) l1 →
  str_in k text = true →
  first_match (l1 ++ (k, v) :: l2) text = Some v.
Proof.
  intros Hl1 Hk. induction Hl1 as [|[k' v'] l1 Hk' _ IH]; simpl.
  - by rewrite Hk.
  - simpl in Hk'. by rewrite Hk'.
Qed.

Lemma first_match_none its text :
  Forall (λ kv, str_in kv.1 text = false) its → first_match its text = None.
Proof.
  induction 1 as [|[k v] its Hk _ IH]; simpl; [done|].
  simpl in Hk. by rewrite Hk.
Qed.

(** The response of a table for a query: that of the first key, in the
    order of the table, that matches the query; none when no key does. *)
Lemma first_match_matches table query :
  (∀ l1 k v l2,
     table = l1 ++ (k, v) :: l2 →
     matches k query →
     (∀ k' v', (k', v') ∈ l1 → ¬ matches k' query) →
     first_match table (lower query) = Some v) ∧
  ((∀ k v, (k, v) ∈ table → ¬ matches k query) →
   first_match table (lower query) = None).
Proof.
  split.
  - intros l1 k v l2 -> Hk Hl1. apply first_match_first.
    + apply Forall_forall. intros [k' v'] Hin. simpl.
      apply str_in_lower_false. by eapply Hl1.
    + by apply str_in_lower.
  - intros Hnone. apply first_match_none, Forall_forall.
    intros [k v] Hin. simpl. apply str_in_lower_false. by eapply Hnone.
Qed.

(** ** The keyword-matching tools *)

(** C8, as the code has it.  Both tools look the query up without regard
    to the case of its letters and answer with the response of the first
    keyword, in the order of the table, that occurs in it.  When no keyword
    occurs, [check_hawkins_records] answers with a fallback that quotes the
    query, and [gather_party_wisdom] with one fixed sentence. *)
Theorem keyword_tools_spec (query : string) :
  (∀ l1 k v l2,
     records = l1 ++ (k, v) :: l2 →
     matches k query →
     (∀ k' v', (k', v') ∈ l1 → ¬ matches k' query) →
     check_hawkins_records query = v) ∧
  (∀ l1 k v l2,
     party_responses = l1 ++ (k, v) :: l2 →
     matches k query →
     (∀ k' v', (k', v') ∈ l1 → ¬ matches k' query) →
     gather_party_wisdom query = v) ∧
  ((∀ k v, (k, v) ∈ records → ¬ matches k query) →
   check_hawkins_records query =
     "Records don't contain specific information about '" +:+ query +:+
     "', but many unexplained events have occurred in Hawkins." ∧
   echoes query (check_hawkins_records query) = true) ∧
  ((∀ k v, (k, v) ∈ party_responses → ¬ matches k query) →
   gather_party_wisdom query =
     "The party huddles together. Mike: 'This is a tough one.' Dustin: 'We need more information.'").
Proof.
  split; [|split; [|split]].
  - intros l1 k v l2 Htable Hk Hl1. unfold check_hawkins_records, Dict.items.
    by rewrite (proj1 (first_match_matches records query) l1 k v l2).
  - intros l1 k v l2 Htable Hk Hl1. unfold gather_party_wisdom, Dict.items.
    by rewrite (proj1 (first_match_matches party_responses query) l1 k v l2).
  - intros Hnone. unfold check_hawkins_records, Dict.items.
    rewrite (proj2 (first_match_matches records query)) by done.
    split; [done|]. unfold echoes. apply str_in_spec. eauto.
  - intros Hnone. unfold gather_party_wisdom, Dict.items.
    by rewrite (proj2 (first_match_matches party_responses query)).
Qed.

Lemma keyword_tools_spec_witness :
  matches "portal" "The PORTAL opens on different days" ∧
  check_hawkins_records "The PORTAL opens on different days" =
    "Records show portals have opened on various dates with no clear pattern.".
Proof.
  assert (Hm : matches "portal" "The PORTAL opens on different days").
  { exists "The ", "PORTAL", " opens on different days". split; reflexivity. }
  split; [exact Hm|].
  apply (proj1 (keyword_tools_spec "The PORTAL opens on different days")
           [] "portal" _ (tail records)).
  - reflexivity.
  - exact Hm.
  - intros k' v' Hin. by apply elem_of_nil in Hin.
Defined.

(** C8 as stated fails for [gather_party_wisdom]: on a question in which no
    keyword occurs, its answer does not contain the question. *)
Lemma gather_party_wisdom_echo_counterexample :
  ¬ ∀ question,
      first_match (Dict.items party_responses) (lower question) = None →
      echoes question (gather_party_wisdom question) = true.
Proof.
  intros Hecho.
  specialize (Hecho "How come a bunch of kids outsmart the US Army?" eq_refl).
  vm_compute in Hecho. discriminate Hecho.
Qed.

(** ** The random-selection tool *)

Lemma spells_NoDup problem : NoDup (spells problem).
Proof.
  unfold spells. repeat apply NoDup_cons_2; try apply NoDup_nil_2;
    rewrite ?not_elem_of_cons; repeat split; try apply not_elem_of_nil;
    intros Heq; rewrite !app_String in Heq; discriminate Heq.
Qed.

Lemma NoDup_distinct_below {A} (pool : list A) :
  NoDup pool → distinct_below pool (length pool).
Proof. intros Hnd i i' x _ _ Hi Hi'. by eapply NoDup_lookup. Qed.

Section Sampling.
Variable rng : Type.
Variable randbelow : nat → rng → nat * rng.
(** The contract of the generator: a draw below [n] is below [n]. *)
Hypothesis randbelow_lt : ∀ n g, (0 < n)%nat → ((randbelow n g).1 < n)%nat.

(** The selection loop returns [k] pairwise distinct items, all from the
    part of the pool not selected before. *)
Lemma sample_loop_spec {A} : ∀ k (pool : list A) m g,
  (k ≤ m)%nat → (m ≤ length pool)%nat → distinct_below pool m →
  ∃ res g',
    sample_loop randbelow pool m k g = (inr res, g') ∧
    length res = k ∧ NoDup res ∧
    ∀ x, x ∈ res → ∃ i, (i < m)%nat ∧ pool !! i = Some x.
Proof.
  induction k as [|k IH]; intros pool m g Hkm Hm Hdist.
  { exists [], g. repeat split; [constructor | by intros x ?%elem_of_nil]. }
  destruct m as [|m]; [lia|].
  pose proof (randbelow_lt (S m) g ltac:(lia)) as Hj.
  destruct (randbelow (S m) g) as [j g1] eqn:Hdraw. simpl in Hj.
  destruct (lookup_lt_is_Some_2 pool j ltac:(lia)) as [x Hx].
  destruct (lookup_lt_is_Some_2 pool m ltac:(lia)) as [y Hy].
  assert (Hdist' : distinct_below (<[j := y]> pool) m).
  { intros i i' z Hi Hi'.
    destruct (decide (i = j)) as [->|Hij]; destruct (decide (i' = j)) as [->|Hi'j];
      rewrite ?list_lookup_insert_eq, ?list_lookup_insert_ne by (done || lia);
      [done|..].
    - intros [= <-] Hz. pose proof (Hdist m i' y ltac:(lia) ltac:(lia) Hy Hz). lia.
    - intros Hz [= <-]. pose proof (Hdist m i y ltac:(lia) ltac:(lia) Hy Hz). lia.
    - intros Hz Hz'. apply (Hdist i i' z); (done || lia). }
  destruct (IH (<[j := y]> pool) m g1 ltac:(lia)
              ltac:(rewrite length_insert; lia) Hdist')
    as (res & g' & Hrun & Hlen & Hnd & Hfrom).
  exists (x :: res), g'.
  split; [|split; [|split]].
  - cbn [sample_loop]. unfold bind at 1. unfold draw. rewrite Hdraw.
    unfold bind at 1. unfold index at 1. rewrite Hx. unfold ret at 1.
    unfold bind at 1. unfold index at 1.
    replace (S m - 1)%nat with m by lia. rewrite Hy. unfold ret at 1.
    unfold bind at 1. by rewrite Hrun.
  - simpl. by rewrite Hlen.
  - apply NoDup_cons. split; [|done]. intros Hin.
    destruct (Hfrom x Hin) as (i & Hi & Hix).
    destruct (decide (i = j)) as [->|Hij].
    + rewrite list_lookup_insert_eq in Hix by lia. injection Hix as ->.
      pose proof (Hdist m j x ltac:(lia) ltac:(lia) Hy Hx). lia.
    + rewrite list_lookup_insert_ne in Hix by done.
      pose proof (Hdist i j x ltac:(lia) ltac:(lia) Hix Hx). lia.
  - intros z [->|Hin]%elem_of_cons; [exists j; split; [lia | done]|].
    destruct (Hfrom z Hin) as (i & Hi & Hiz).
    destruct (decide (i = j)) as [->|Hij].
    + rewrite list_lookup_insert_eq in Hiz by lia. injection Hiz as <-.
      exists m. split; [lia | done].
    + rewrite list_lookup_insert_ne in Hiz by done.
      exists i. split; [lia | done].
Qed.

(** [random.sample] of [k] items out of distinct ones: [k] items of the
    population, no two equal. *)
Lemma random_sample_spec {A} (population : list A) (k : Z) g :
  NoDup population → 0 ≤ k ≤ len population →
  ∃ res g',
    random_sample randbelow population k g = (inr res, g') ∧
    len res = k ∧ NoDup res ∧ res ⊆ population.
Proof.
  intros Hnd Hk. unfold random_sample.
  replace ((0 <=? k) && (k <=? len population)) with true
    by (symmetry; apply andb_true_iff; split; apply Z.leb_le; lia).
  destruct (sample_loop_spec (Z.to_nat k) population (length population) g)
    as (res & g' & Hrun & Hlen & Hres & Hfrom).
  - unfold len in Hk. lia.
  - done.
  - by apply NoDup_distinct_below.
  - exists res, g'. split; [done|]. split; [unfold len; lia|]. split; [done|].
    intros x Hx. destruct (Hfrom x Hx) as (i & _ & Hi).
    by eapply list_elem_of_lookup_2.
Qed.

End Sampling.

(** C5, as the code has it.  A creativity level other than low, medium and
    high makes the tool raise the KeyError of the failed lookup, with the
    level as its key; it is raised before anything is drawn, so the state of
    the shared generator is as it was. *)
Theorem cast_interdimensional_spell_bad_level {rng : Type}
    (randbelow : nat → rng → nat * rng) (problem level : string) (g : rng) :
  level ∉ ["low"; "medium"; "high"] →
  cast_interdimensional_spell randbelow problem (Some level) g
    = (inl (KeyError level), g).
Proof.
  intros Hlevel. rewrite !not_elem_of_cons in Hlevel.
  destruct Hlevel as (Hlow & Hmedium & Hhigh & _).
  unfold cast_interdimensional_spell, bind, Dict.getitem, creativity_levels.
  simpl. by rewrite !decide_False.
Qed.

Lemma cast_interdimensional_spell_bad_level_witness :
  cast_interdimensional_spell lcg_randbelow "the lights flicker" (Some "extreme") 7%nat
    = (inl (KeyError "extreme"), 7%nat).
Proof.
  apply cast_interdimensional_spell_bad_level.
  apply (bool_decide_unpack _). vm_compute. reflexivity.
Defined.

(** C5 as stated fails: the error raised for an unrecognised level is a
    KeyError, not InvalidParameter. *)
Lemma invalid_level_counterexample :
  (cast_interdimensional_spell lcg_randbelow "the lights flicker" (Some "extreme") 7%nat).1
    ≠ inl InvalidParameter.
Proof. vm_compute. discriminate. Qed.

(** C9. For each of the levels low, medium and high, with the multipliers
    1, 2 and 3, the tool draws a sample of exactly that many spells out of
    its four candidates, no two of them equal, and returns them joined by
    line feeds. *)
Theorem cast_interdimensional_spell_selects {rng : Type}
    (randbelow : nat → rng → nat * rng) (problem level : string) (g : rng) :
  (∀ n g, (0 < n)%nat → ((randbelow n g).1 < n)%nat) →
  level ∈ ["low"; "medium"; "high"] →
  ∃ multiplier selected g',
    Dict.get level creativity_levels = Some multiplier ∧
    multiplier = (if decide (level = "low") then 1
                  else if decide (level = "medium") then 2 else 3) ∧
    random_sample randbelow (spells problem) multiplier g = (inr selected, g') ∧
    cast_interdimensional_spell randbelow problem (Some level) g
      = (inr (join newline selected), g') ∧
    len selected = multiplier ∧
    NoDup selected ∧
    selected ⊆ spells problem ∧
    len (spells problem) = 4 ∧ 3 ≤ len (spells problem).
Proof.
  intros Hrand Hlevel.
  assert (Hm : ∃ m, Dict.get level creativity_levels = Some m ∧
                    m = (if decide (level = "low") then 1
                         else if decide (level = "medium") then 2 else 3) ∧
                    1 ≤ m ≤ 3).
  { rewrite !elem_of_cons in Hlevel.
    destruct Hlevel as [->|[->|[->|Hnil]]]; [..|by apply elem_of_nil in Hnil];
      eexists; (split; [reflexivity|]); (split; [reflexivity | lia]). }
  destruct Hm as (m & Hget & Hm & Hrange).
  destruct (random_sample_spec rng randbelow Hrand (spells problem) m g)
    as (selected & g' & Hrun & Hlen & Hnd & Hsub).
  { apply spells_NoDup. }
  { unfold len. simpl. lia. }
  exists m, selected, g'.
  split; [done|]. split; [done|]. split; [done|]. split.
  - unfold cast_interdimensional_spell.
    change (default "medium" (Some level)) with level.
    unfold bind, Dict.getitem. rewrite Hget. unfold ret at 1.
    replace (m `min` len (spells problem)) with m by (unfold len; simpl; lia).
    by rewrite Hrun.
  - by repeat split.
Qed.

Lemma cast_interdimensional_spell_selects_witness :
  ∃ selected g',
    cast_interdimensional_spell lcg_randbelow "the lights flicker" (Some "high") 7%nat
      = (inr (join newline selected), g') ∧
    len selected = 3 ∧ NoDup selected.
Proof.
  destruct (cast_interdimensional_spell_selects lcg_randbelow
              "the lights flicker" "high" 7%nat)
    as (m & selected & g' & Hget & _ & _ & Hrun & Hlen & Hnd & _).
  - intros n g Hn. simpl. by apply Nat.mod_upper_bound, Nat.neq_0_lt_0.
  - apply (bool_decide_unpack _). vm_compute. reflexivity.
  - vm_compute in Hget. injection Hget as <-.
    exists selected, g'. split; [exact Hrun|]. split; [exact Hlen | exact Hnd].
Defined.

(** * Further properties of the tracker *)

Lemma get_Some_elem {V} k (v : V) d : Dict.get k d = Some v → (k, v) ∈ d.
Proof.
  induction d as [|[k' v'] d IH]; simpl; [done|].
  case_decide as Hk.
  - intros [= ->]. subst. left.
  - intros Hget. right. by apply IH.
Qed.

Lemma comprehension_get (tools : list string) t :
  Dict.get t (Dict.comprehension id (λ _, 0) tools) =
    if decide (t ∈ tools) then Some 0 else None.
Proof.
  pose proof (comprehension_keys tools) as Hkeys.
  pose proof (comprehension_all_zero tools) as Hzero.
  case_decide as Hin.
  - apply (elem_of_list_to_set (C := gset string)) in Hin.
    rewrite <- Hkeys in Hin. apply elem_of_list_to_set in Hin.
    destruct (get_Some_keys _ _ Hin) as [c Hc]. rewrite Hc. f_equal.
    apply get_Some_elem in Hc.
    unfold all_zero in Hzero. rewrite Forall_forall in Hzero.
    apply (Hzero _ Hc).
  - apply get_None. intros Hk. apply Hin.
    apply (elem_of_list_to_set (C := gset string)) in Hk.
    rewrite Hkeys in Hk. by apply elem_of_list_to_set in Hk.
Qed.

Lemma occurrences_nonneg t names : 0 ≤ occurrences t names ≤ len names.
Proof.
  unfold occurrences, len.
  pose proof (length_filter (λ name, name = t) names). lia.
Qed.

(** A run keeps the earlier sequence and appends the names that are keys,
    in the order of the events. *)
Lemma run_sequence names : ∀ d l,
  (foldl step (d, l) names).2 = l ++ filter (λ n, n ∈ Dict.keys d) names.
Proof.
  induction names as [|n names IH]; intros d l; simpl.
  - by rewrite filter_nil, app_nil_r.
  - unfold step at 2. simpl. destruct (Dict.get n d) as [c|] eqn:Hget.
    + assert (Hin : n ∈ Dict.keys d).
      { destruct (decide (n ∈ Dict.keys d)) as [|Hnin]; [done|].
        apply get_None in Hnin. congruence. }
      rewrite IH, keys_set_in, filter_cons_True, <- app_assoc by done. done.
    + apply get_None in Hget. by rewrite IH, filter_cons_False.
Qed.

(** A run adds to a count the number of events that name its key, and
    gives no count to a name that had none. *)
Lemma run_get names : ∀ d l t,
  Dict.get t (foldl step (d, l) names).1 =
    (λ c, c + occurrences t names) <$> Dict.get t d.
Proof.
  induction names as [|n names IH]; intros d l t; simpl.
  - destruct (Dict.get t d); simpl; [|done]. f_equal.
    unfold occurrences, len. simpl. lia.
  - unfold step at 2. simpl. rewrite occurrences_cons.
    destruct (Dict.get n d) as [c|] eqn:Hget.
    + rewrite IH. destruct (decide (n = t)) as [->|Hne].
      * rewrite get_set_eq, Hget. simpl. f_equal. lia.
      * rewrite get_set_ne by done. destruct (Dict.get t d); simpl; [|done].
        f_equal.
    + rewrite IH. destruct (decide (n = t)) as [->|Hne].
      * by rewrite Hget.
      * destruct (Dict.get t d); simpl; [|done]. f_equal.
Qed.

Lemma occurrences_filter (P : string → Prop) `{∀ x, Decision (P x)} t names :
  P t → occurrences t (filter P names) = occurrences t names.
Proof.
  intros Ht. unfold occurrences. f_equal.
  induction names as [|n names IH]; [done|].
  destruct (decide (P n)) as [Hn|Hn].
  - rewrite filter_cons_True by done. rewrite !filter_cons.
    case_decide; by rewrite IH.
  - rewrite filter_cons_False by done. rewrite (filter_cons _ n).
    case_decide; [by subst | done].
Qed.

(** A dict is the table of its own lookups over its keys. *)
Lemma dict_as_table (d : Dict.t Z) :
  NoDup (Dict.keys d) →
  d = table (λ t, default 0 (Dict.get t d)) (Dict.keys d).
Proof.
  induction d as [|[k v] d IH]; [done|].
  intros [Hk Hnd]%NoDup_cons. unfold table. csimpl.
  rewrite decide_True by done. simpl. f_equal.
  rewrite IH at 1 by done. apply table_ext.
  intros t Ht. rewrite decide_False; [done|]. intros ->. done.
Qed.

(** The state after a session, in closed form. *)
Lemma session_closed_form (tools : list string) evs h0 :
  ∃ tr h,
    session tools evs h0 = (inr tr, h) ∧
    holds h tr
      (table (λ t, calls_of t evs) (Dict.keys (Dict.comprehension id (λ _, 0) tools)))
      (filter (λ n, n ∈ tools) (event_name <$> evs)).
Proof.
  destruct (session_spec tools evs h0) as (tr & h & Hrun & Hh).
  exists tr, h. split; [exact Hrun|].
  set (d0 := Dict.comprehension id (λ _, 0) tools) in *.
  set (names := event_name <$> evs) in *.
  assert (Hd : (foldl step (d0, []) names).1 = table (λ t, calls_of t evs) (Dict.keys d0)).
  { rewrite (dict_as_table d0) at 1 by apply comprehension_NoDup.
    rewrite run_table by apply comprehension_NoDup.
    apply table_ext. intros t Ht.
    unfold d0. rewrite comprehension_get.
    case_decide; simpl; unfold calls_of, occurrences, names; lia. }
  assert (Hl : (foldl step (d0, []) names).2 = filter (λ n, n ∈ tools) names).
  { rewrite run_sequence. simpl. apply list_filter_iff. intros n.
    rewrite <- !(elem_of_list_to_set (C := gset string)).
    unfold d0. by rewrite comprehension_keys. }
  by rewrite Hd, Hl in Hh.
Qed.



(** X2. After a session, the count of every registered tool is the number
    of events that named it, which is also the number of times it occurs in
    the recorded sequence; a name that is not registered has no entry. *)
Theorem session_counts (tools : list string) (evs : list event) (h0 : heap) :
  ∃ tr h d l,
    session tools evs h0 = (inr tr, h) ∧
    holds h tr d l ∧
    ∀ t,
      Dict.get t d = (if decide (t ∈ tools) then Some (calls_of t evs) else None) ∧
      (t ∈ tools → calls_of t evs = occurrences t l).
Proof.
  destruct (session_spec tools evs h0) as (tr & h & Hrun & Hh).
  eexists tr, h, _, _. split; [exact Hrun|]. split; [exact Hh|].
  intros t. split.
  - rewrite run_get, comprehension_get. case_decide; reflexivity.
  - intros Ht. rewrite run_sequence. simpl.
    rewrite occurrences_filter; [done|].
    apply (elem_of_list_to_set (C := gset string)).
    rewrite comprehension_keys. by apply elem_of_list_to_set.
Qed.

Lemma calls_of_Permutation t evs evs' : evs ≡ₚ evs' → calls_of t evs = calls_of t evs'.
Proof.
  intros Hperm. unfold calls_of, len. f_equal.
  apply Permutation_length. by rewrite Hperm.
Qed.

(** X3. The counts do not depend on the order of the events: two sessions
    over the same registry whose events are a rearrangement of one another
    end with the same dict, the same total and the same most_used; only the
    recorded sequences differ, and they are rearrangements of one
    another. *)
Theorem counts_order_independent (tools : list string) (evs evs' : list event)
    (h0 h0' : heap) :
  evs ≡ₚ evs' →
  ∃ tr h tr' h' d l l' st st',
    session tools evs h0 = (inr tr, h) ∧
    session tools evs' h0' = (inr tr', h') ∧
    holds h tr d l ∧ holds h' tr' d l' ∧
    l ≡ₚ l' ∧
    get_statistics tr h = (inr st, h) ∧
    get_statistics tr' h' = (inr st', h') ∧
    Statistics.total_tool_calls st = Statistics.total_tool_calls st' ∧
    Statistics.most_used st = Statistics.most_used st'.
Proof.
  intros Hperm.
  destruct (session_closed_form tools evs h0) as (tr & h & Hrun & Hh).
  destruct (session_closed_form tools evs' h0') as (tr' & h' & Hrun' & Hh').
  assert (Heq : table (λ t, calls_of t evs')
                  (Dict.keys (Dict.comprehension id (λ _, 0) tools)) =
                table (λ t, calls_of t evs)
                  (Dict.keys (Dict.comprehension id (λ _, 0) tools))).
  { apply table_ext. intros t _. symmetry. by apply calls_of_Permutation. }
  rewrite Heq in Hh'.
  eexists tr, h, tr', h', _, _, _, _, _.
  split; [exact Hrun|]. split; [exact Hrun'|].
  split; [exact Hh|]. split; [exact Hh'|].
  split; [by rewrite Hperm|].
  split; [by apply (get_statistics_spec _ _ _ _ Hh)|].
  split; [by apply (get_statistics_spec _ _ _ _ Hh')|]. done.
Qed.

Lemma counts_order_independent_witness :
  ∃ tr h tr' h' d l l',
    session ["a"; "b"] (named <$> ["a"; "b"; "b"]) ∅ = (inr tr, h) ∧
    session ["a"; "b"] (named <$> ["b"; "a"; "b"]) ∅ = (inr tr', h') ∧
    holds h tr d l ∧ holds h' tr' d l'.
Proof.
  destruct (counts_order_independent ["a"; "b"]
              (named <$> ["a"; "b"; "b"]) (named <$> ["b"; "a"; "b"]) ∅ ∅)
    as (tr & h & tr' & h' & d & l & l' & st & st' & Hrun & Hrun' & Hh & Hh' & _).
  - apply Permutation_swap.
  - exists tr, h, tr', h', d, l, l'.
    split; [exact Hrun|]. split; [exact Hrun'|]. split; [exact Hh | exact Hh'].
Defined.

Lemma max_loop_maximal rest : ∀ best,
  max_loop best rest ∈ best :: rest ∧
  ∀ x, x ∈ best :: rest → x.2 ≤ (max_loop best rest).2.
Proof.
  induction rest as [|y rest IH]; intros best; simpl.
  - split; [left|]. intros x ->%list_elem_of_singleton. lia.
  - destruct (Z.ltb_spec best.2 y.2) as [Hlt|Hge].
    + destruct (IH y) as [Hin Hmax]. split.
      * right. exact Hin.
      * intros x [->|Hx]%elem_of_cons.
        -- specialize (Hmax y (list_elem_of_here _ _)). lia.
        -- by apply Hmax.
    + destruct (IH best) as [Hin Hmax]. split.
      * apply elem_of_cons in Hin as [->|Hin]; [left | right; by right].
      * intros x [->|[->|Hx]%elem_of_cons]%elem_of_cons.
        -- apply Hmax. left.
        -- specialize (Hmax best (list_elem_of_here _ _)). lia.
        -- apply Hmax. by right.
Qed.

(** X4. In every state of a tracker [get_statistics] returns normally; over
    a dict with an entry, most_used is a key whose count no other count
    exceeds, and over an empty dict it is None. *)
Theorem most_used_is_maximal h tr d l :
  holds h tr d l →
  ∃ st,
    get_statistics tr h = (inr st, h) ∧
    (d = [] → Statistics.most_used st = None) ∧
    (d ≠ [] →
     ∃ k c, Statistics.most_used st = Some k ∧ (k, c) ∈ d ∧
            ∀ k' c', (k', c') ∈ d → c' ≤ c).
Proof.
  intros Hh. eexists. split; [by apply (get_statistics_spec _ _ _ _ Hh)|].
  simpl. split; [by intros ->|]. intros Hne.
  destruct d as [|x rest]; [done|]. simpl.
  destruct (max_loop_maximal rest x) as [Hin Hmax].
  destruct (max_loop x rest) as [k c] eqn:Hbest.
  exists k, c. split; [done|]. split; [done|].
  intros k' c' Hin'. apply (Hmax (k', c') Hin').
Qed.

Lemma most_used_is_maximal_witness :
  let h : heap := {[ 1%positive := PDict [("a", 1); ("b", 3); ("c", 3)]; 2%positive := PList [] ]} in
  ∃ st, get_statistics (Build 1%positive 2%positive) h = (inr st, h) ∧
        ∃ k c, Statistics.most_used st = Some k ∧ (k, c) ∈ [("a", 1); ("b", 3); ("c", 3)].
Proof.
  intros h.
  destruct (most_used_is_maximal h (Build 1%positive 2%positive)
              [("a", 1); ("b", 3); ("c", 3)] [])
    as (st & Hrun & _ & Hsome).
  - split; reflexivity.
  - exists st. split; [exact Hrun|].
    destruct Hsome as (k & c & Hk & Hin & _); [discriminate|].
    exists k, c. split; [exact Hk | exact Hin].
Defined.

(** Events change the two objects of the tracker and no other. *)
Lemma on_tool_start_frame h tr d l e :
  holds h tr d l →
  ∃ h', on_tool_start tr e.1 e.2 h = (inr (), h') ∧
        holds h' tr (step (d, l) (event_name e)).1 (step (d, l) (event_name e)).2 ∧
        ∀ a, a ≠ usage_count tr → a ≠ tool_sequences tr → h' !! a = h !! a.
Proof.
  intros Hh. unfold step, event_name. simpl.
  destruct (Dict.get (tool_name_of e.1) d) as [c|] eqn:Hget; simpl.
  - eexists. split; [by apply (on_tool_start_known h tr d l)|].
    split; [by apply (holds_update h tr d l)|].
    intros a Ha1 Ha2. by rewrite !lookup_insert_ne.
  - exists h. split; [by apply (on_tool_start_unknown h tr d l) | done].
Qed.

Lemma deliver_frame tr evs : ∀ h d l,
  holds h tr d l →
  ∃ h', deliver tr evs h = (inr (), h') ∧
        holds h' tr (foldl step (d, l) (event_name <$> evs)).1
                    (foldl step (d, l) (event_name <$> evs)).2 ∧
        ∀ a, a ≠ usage_count tr → a ≠ tool_sequences tr → h' !! a = h !! a.
Proof.
  induction evs as [|e evs IH]; intros h d l Hh; csimpl.
  - by exists h.
  - destruct (on_tool_start_frame _ _ _ _ e Hh) as (h1 & Hrun & Hh1 & Hfr1).
    destruct (step (d, l) (event_name e)) as [d1 l1] eqn:Hstep.
    destruct (IH _ _ _ Hh1) as (h2 & Hrun2 & Hh2 & Hfr2).
    exists h2. split; [|split; [done|]].
    + unfold deliver in *. simpl. unfold bind at 1. by rewrite Hrun.
    + intros a Ha1 Ha2. by rewrite Hfr2, Hfr1.
Qed.

(** X5. Two trackers made in the same store share nothing: after events
    are delivered to the first one, it is in the state a session of its own
    would leave it in, and the second one still has every count at zero
    and an empty sequence. *)
Theorem two_trackers_independent (tools1 tools2 : list string)
    (evs : list event) (h0 : heap) :
  ∃ tr1 tr2 h,
    two_trackers tools1 tools2 evs h0 = (inr (tr1, tr2), h) ∧
    holds h tr1
      (foldl step (Dict.comprehension id (λ _, 0) tools1, []) (event_name <$> evs)).1
      (foldl step (Dict.comprehension id (λ _, 0) tools1, []) (event_name <$> evs)).2 ∧
    holds h tr2 (Dict.comprehension id (λ _, 0) tools2) [] ∧
    usage_count tr1 ≠ usage_count tr2 ∧
    tool_sequences tr1 ≠ tool_sequences tr2.
Proof.
  destruct (init_spec tools1 h0) as (tr1 & Hinit1 & Huc1 & Hts1 & Hne1).
  set (h1 := <[tool_sequences tr1 := PList []]>
               (<[usage_count tr1 := PDict (Dict.comprehension id (λ _, 0) tools1)]> h0))
    in *.
  destruct (init_spec tools2 h1) as (tr2 & Hinit2 & Huc2 & Hts2 & Hne2).
  set (h2 := <[tool_sequences tr2 := PList []]>
               (<[usage_count tr2 := PDict (Dict.comprehension id (λ _, 0) tools2)]> h1))
    in *.
  assert (Hdom1 : usage_count tr1 ∈ dom h1 ∧ tool_sequences tr1 ∈ dom h1).
  { unfold h1. rewrite !dom_insert_L. set_solver. }
  destruct Hdom1 as [Hd1 Hd2].
  assert (Hu : usage_count tr1 ≠ usage_count tr2) by (intros Heq; by rewrite Heq in Hd1).
  assert (Ht : tool_sequences tr1 ≠ tool_sequences tr2) by (intros Heq; by rewrite Heq in Hd2).
  assert (Hut : usage_count tr1 ≠ tool_sequences tr2) by (intros Heq; by rewrite Heq in Hd1).
  assert (Htu : tool_sequences tr1 ≠ usage_count tr2) by (intros Heq; by rewrite Heq in Hd2).
  assert (Hh1 : holds h2 tr1 (Dict.comprehension id (λ _, 0) tools1) []).
  { unfold h2, h1. split.
    - do 3 rewrite lookup_insert_ne by congruence. by rewrite lookup_insert_eq.
    - do 2 rewrite lookup_insert_ne by congruence. by rewrite lookup_insert_eq. }
  assert (Hh2 : holds h2 tr2 (Dict.comprehension id (λ _, 0) tools2) []).
  { unfold h2. split.
    - by rewrite lookup_insert_ne, lookup_insert_eq.
    - by rewrite lookup_insert_eq. }
  destruct (deliver_frame tr1 evs _ _ _ Hh1) as (h3 & Hrun & Hh3 & Hframe).
  exists tr1, tr2, h3. split.
  { unfold two_trackers, bind. by rewrite Hinit1, Hinit2, Hrun. }
  split; [exact Hh3|]. split; [|done].
  destruct Hh2 as [Hd Hl]. split.
  - by rewrite Hframe.
  - by rewrite Hframe.
Qed.

(** X6. [__init__] makes two new objects and leaves every object already
    in the store as it is; the new dict has each registered name exactly
    once, with the count zero, and no other key, and the new sequence is
    empty. *)
Theorem init_fresh_zero (tools : list string) (h0 : heap) :
  ∃ tr h d,
    init tools h0 = (inr tr, h) ∧
    holds h tr d [] ∧
    (usage_count tr ∉ dom h0) ∧ (tool_sequences tr ∉ dom h0) ∧
    (∀ a o, h0 !! a = Some o → h !! a = Some o) ∧
    NoDup (Dict.keys d) ∧
    ∀ t, Dict.get t d = if decide (t ∈ tools) then Some 0 else None.
Proof.
  destruct (init_spec tools h0) as (tr & Hinit & Huc & Hts & Hne).
  eexists tr, _, _. split; [exact Hinit|].
  split.
  { split; [by rewrite lookup_insert_ne, lookup_insert_eq | by rewrite lookup_insert_eq]. }
  split; [done|]. split; [done|]. split.
  { intros a o Ha.
    assert (a ∈ dom h0) by (apply elem_of_dom; eauto).
    rewrite !lookup_insert_ne; [done| |]; intros <-; done. }
  split; [apply comprehension_NoDup | apply comprehension_get].
Qed.

(** X7. Events never take anything back: after any events the earlier
    sequence is a prefix of the new one, the keys are the same in the same
    order, and every count is at least what it was and has grown by at most
    the number of events. *)
Theorem deliver_append_only h tr d l (evs : list event) :
  holds h tr d l →
  ∃ h' d' l',
    deliver tr evs h = (inr (), h') ∧
    holds h' tr d' l' ∧
    l `prefix_of` l' ∧
    Dict.keys d' = Dict.keys d ∧
    ∀ t c, Dict.get t d = Some c →
           ∃ c', Dict.get t d' = Some c' ∧ c ≤ c' ≤ c + len evs.
Proof.
  intros Hh. destruct (deliver_spec tr evs _ _ _ Hh) as (h' & Hrun & Hh').
  eexists h', _, _. split; [exact Hrun|]. split; [exact Hh'|].
  split; [|split].
  - rewrite run_sequence. by apply prefix_app_r.
  - by rewrite run_keys.
  - intros t c Hc. rewrite run_get, Hc. simpl. eexists. split; [done|].
    pose proof (occurrences_nonneg t (event_name <$> evs)) as Hocc.
    unfold len in *. rewrite length_fmap in Hocc. lia.
Qed.

Lemma deliver_append_only_witness :
  let h : heap := {[ 1%positive := PDict [("a", 2); ("b", 1)]; 2%positive := PList ["a"; "b"; "a"] ]} in
  ∃ h' d' l',
    deliver (Build 1%positive 2%positive) [named "b"; named "z"] h = (inr (), h') ∧
    holds h' (Build 1%positive 2%positive) d' l' ∧
    ["a"; "b"; "a"] `prefix_of` l'.
Proof.
  intros h.
  destruct (deliver_append_only h (Build 1%positive 2%positive)
              [("a", 2); ("b", 1)] ["a"; "b"; "a"] [named "b"; named "z"])
    as (h' & d' & l' & Hrun & Hh & Hpre & _).
  - split; reflexivity.
  - exists h', d', l'. split; [exact Hrun|]. split; [exact Hh | exact Hpre].
Defined.

(** * Further properties of the tools *)

Lemma str_app_assoc a b c : (a +:+ b) +:+ c = a +:+ (b +:+ c).
Proof.
  induction a as [|x a IH]; [done|]. by rewrite !app_String, IH.
Qed.

Lemma str_app_empty_r s : s +:+ EmptyString = s.
Proof. induction s as [|x s IH]; [done|]. by rewrite app_String, IH. Qed.

Lemma str_length_app a b :
  String.length (a +:+ b) = (String.length a + String.length b)%nat.
Proof.
  induction a as [|x a IH]; [done|]. rewrite app_String. simpl. by rewrite IH.
Qed.

Lemma str_app_cancel_l p a b : p +:+ a = p +:+ b → a = b.
Proof.
  induction p as [|x p IH]; [done|]. rewrite !app_String. intros [= H]. by apply IH.
Qed.

Lemma str_app_cancel_r s : ∀ a b, a +:+ s = b +:+ s → a = b.
Proof.
  induction a as [|x a IH]; intros [|y b] H; [done|..].
  - apply (f_equal String.length) in H.
    rewrite !str_length_app in H. simpl in H. lia.
  - apply (f_equal String.length) in H.
    rewrite !str_length_app in H. simpl in H. lia.
  - rewrite !app_String in H. injection H as -> H. f_equal. by apply IH.
Qed.

(** X8. The two keyword tools decide alike: for every query either both
    answer for the same keyword, one that occurs in the query, each with
    its own response for it, or no keyword occurs and both give their
    fallback. *)
Theorem keyword_tools_agree (query : string) :
  (∃ k v w,
     (k, v) ∈ records ∧ (k, w) ∈ party_responses ∧ matches k query ∧
     check_hawkins_records query = v ∧ gather_party_wisdom query = w) ∨
  ((∀ k, k ∈ Dict.keys records → ¬ matches k query) ∧
   (∀ k, k ∈ Dict.keys party_responses → ¬ matches k query) ∧
   check_hawkins_records query =
     "Records don't contain specific information about '" +:+ query +:+
     "', but many unexplained events have occurred in Hawkins." ∧
   gather_party_wisdom query =
     "The party huddles together. Mike: 'This is a tough one.' Dustin: 'We need more information.'").
Proof.
  unfold check_hawkins_records, gather_party_wisdom, records, party_responses,
    Dict.items, Dict.keys.
  cbn [first_match fmap list_fmap fst].
  destruct (str_in "portal" (lower query)) eqn:H1;
    [left; eexists "portal", _, _;
     split; [by repeat constructor|]; split; [by repeat constructor|];
     split; [by apply str_in_lower | done]|].
  destruct (str_in "monsters" (lower query)) eqn:H2;
    [left; eexists "monsters", _, _;
     split; [by repeat constructor|]; split; [by repeat constructor|];
     split; [by apply str_in_lower | done]|].
  destruct (str_in "psychics" (lower query)) eqn:H3;
    [left; eexists "psychics", _, _;
     split; [by repeat constructor|]; split; [by repeat constructor|];
     split; [by apply str_in_lower | done]|].
  destruct (str_in "electricity" (lower query)) eqn:H4;
    [left; eexists "electricity", _, _;
     split; [by repeat constructor|]; split; [by repeat constructor|];
     split; [by apply str_in_lower | done]|].
  right.
  assert (Hnone : ∀ k, k ∈ ["portal"; "monsters"; "psychics"; "electricity"] →
                       ¬ matches k query).
  { intros k Hk. apply str_in_lower_false.
    rewrite !elem_of_cons in Hk.
    destruct Hk as [->|[->|[->|[->|Hk]]]]; [done..|by apply elem_of_nil in Hk]. }
  done.
Qed.

(** X9. The fallback of [check_hawkins_records] carries the query
    unchanged: two queries in which no keyword occurs get the same answer
    only when they are the same query. *)
Theorem check_hawkins_records_fallback_injective (query query' : string) :
  (∀ k, k ∈ Dict.keys records → ¬ matches k query) →
  (∀ k, k ∈ Dict.keys records → ¬ matches k query') →
  check_hawkins_records query = check_hawkins_records query' →
  query = query'.
Proof.
  intros Hq Hq'.
  assert (Hnone : ∀ q, (∀ k, k ∈ Dict.keys records → ¬ matches k q) →
                       first_match (Dict.items records) (lower q) = None).
  { intros q Hnot. apply first_match_none, Forall_forall.
    intros [k v] Hin. simpl. apply str_in_lower_false, Hnot.
    by apply (list_elem_of_fmap_2 fst) in Hin. }
  unfold check_hawkins_records. rewrite (Hnone _ Hq), (Hnone _ Hq').
  intros Heq. apply str_app_cancel_l in Heq. by apply str_app_cancel_r in Heq.
Qed.

Lemma check_hawkins_records_fallback_injective_witness :
  (∀ k, k ∈ Dict.keys records → ¬ matches k "Why do the lights flicker?") ∧
  check_hawkins_records "Why do the lights flicker?" =
    check_hawkins_records "Why do the lights flicker?" ∧
  "Why do the lights flicker?" = "Why do the lights flicker?".
Proof.
  assert (Hnone : ∀ k, k ∈ Dict.keys records → ¬ matches k "Why do the lights flicker?").
  { intros k Hk. apply str_in_lower_false.
    unfold records, Dict.keys in Hk. cbn [fmap list_fmap fst] in Hk.
    rewrite !elem_of_cons in Hk.
    destruct Hk as [->|[->|[->|[->|Hk]]]]; [reflexivity..|by apply elem_of_nil in Hk]. }
  split; [exact Hnone|]. split; [reflexivity|].
  apply (check_hawkins_records_fallback_injective
           "Why do the lights flicker?" "Why do the lights flicker?");
    [exact Hnone | exact Hnone | reflexivity].
Defined.

(** Every candidate spell quotes the problem. *)
Lemma spells_echo problem x :
  x ∈ spells problem → ∃ pre suf, x = pre +:+ problem +:+ suf.
Proof.
  unfold spells. rewrite !elem_of_cons.
  intros [->|[->|[->|[->|Hx]]]]; [..|by apply elem_of_nil in Hx].
  - eexists _, EmptyString. by rewrite str_app_empty_r.
  - eexists _, EmptyString. by rewrite str_app_empty_r.
  - eexists _, EmptyString. by rewrite str_app_empty_r.
  - by eexists _, _.
Qed.

Lemma join_cons sep x xs : ∃ tl, join sep (x :: xs) = x +:+ tl.
Proof.
  unfold join. destruct xs as [|y xs]; simpl.
  - exists EmptyString. by rewrite str_app_empty_r.
  - by eexists.
Qed.

(** The state of the generator after the selection loop has returned: one
    draw for each selected item, below the number of items not yet
    selected. *)
Lemma sample_loop_state {rng A} (randbelow : nat → rng → nat * rng) :
  ∀ k (pool : list A) m g res g',
    sample_loop randbelow pool m k g = (inr res, g') →
    g' = after_draws randbelow ((λ i, m - i)%nat <$> seq 0 k) g.
Proof.
  induction k as [|k IH]; intros pool m g res g' Hrun.
  - by injection Hrun as <- <-.
  - cbn [sample_loop] in Hrun. unfold bind at 1 in Hrun. unfold draw in Hrun.
    destruct (randbelow m g) as [j g1] eqn:Hdraw.
    unfold bind at 1 in Hrun. unfold index at 1 in Hrun.
    destruct (pool !! j) as [x|]; [|discriminate Hrun].
    unfold ret at 1 in Hrun. unfold bind at 1 in Hrun. unfold index at 1 in Hrun.
    destruct (pool !! (m - 1)%nat) as [y|]; [|discriminate Hrun].
    unfold ret at 1 in Hrun. unfold bind at 1 in Hrun.
    destruct (sample_loop randbelow (<[j:=y]> pool) (m - 1) k g1)
      as [[e|rest] g2] eqn:Hrest; [discriminate Hrun|].
    injection Hrun as <- <-.
    apply IH in Hrest. rewrite Hrest.
    unfold after_draws. cbn [seq fmap list_fmap foldl].
    rewrite Nat.sub_0_r, Hdraw. simpl. f_equal.
    rewrite <- fmap_S_seq, <- list_fmap_compose.
    apply list_fmap_ext. intros i n _. simpl. lia.
Qed.

Lemma creativity_levels_range level m :
  Dict.get level creativity_levels = Some m → m = 1 ∨ m = 2 ∨ m = 3.
Proof.
  unfold creativity_levels. simpl. repeat case_decide; naive_solver.
Qed.

Section RandomTools.
Variable rng : Type.
Variable randbelow : nat → rng → nat * rng.
Hypothesis randbelow_lt : ∀ n g, (0 < n)%nat → ((randbelow n g).1 < n)%nat.

(** X10. [consult_demogorgon] draws once, below 3, and answers with the
    response at the drawn index: it returns normally, the first and the
    third response quote the complaint, and the second is the same sentence
    for every complaint. *)
Theorem consult_demogorgon_spec (complaint : string) (g : rng) :
  ∃ r,
    consult_demogorgon randbelow complaint g = (inr r, (randbelow 3 g).2) ∧
    responses complaint !! (randbelow 3 g).1 = Some r ∧
    ((randbelow 3 g).1 ≠ 1%nat → echoes complaint r = true) ∧
    ((randbelow 3 g).1 = 1%nat →
     r = "The Demogorgon makes a sound that might be agreement. It suggests that the problem might be temporal - things work differently in the Upside Down's time.").
Proof.
  pose proof (randbelow_lt 3 g ltac:(lia)) as Hj.
  unfold consult_demogorgon, random_choice, bind, draw. simpl.
  destruct (randbelow 3 g) as [j g1]. simpl in *.
  destruct j as [|[|[|j]]]; [..|lia]; simpl; eexists;
    (split; [reflexivity|]); (split; [reflexivity|]).
  - split; [|done]. intros _. unfold echoes. apply str_in_spec. by eexists _, _.
  - split; [done|]. by intros _.
  - split; [|done]. intros _. unfold echoes. apply str_in_spec. by eexists _, _.
Qed.

(** X11. For each of the levels low, medium and high, the text returned by
    [cast_interdimensional_spell] contains the problem it was asked
    about. *)
Theorem cast_interdimensional_spell_echoes (problem level : string) (g : rng) :
  level ∈ ["low"; "medium"; "high"] →
  ∃ out g',
    cast_interdimensional_spell randbelow problem (Some level) g = (inr out, g') ∧
    echoes problem out = true.
Proof.
  intros Hlevel.
  assert (Hm : ∃ m, Dict.get level creativity_levels = Some m).
  { rewrite !elem_of_cons in Hlevel.
    destruct Hlevel as [->|[->|[->|Hnil]]]; [..|by apply elem_of_nil in Hnil];
      by eexists. }
  destruct Hm as [m Hget].
  pose proof (creativity_levels_range _ _ Hget) as Hrange.
  destruct (random_sample_spec rng randbelow randbelow_lt (spells problem) m g)
    as (selected & g' & Hrun & Hlen & Hnd & Hsub).
  { apply spells_NoDup. }
  { unfold len. simpl. lia. }
  exists (join newline selected), g'. split.
  - unfold cast_interdimensional_spell.
    change (default "medium" (Some level)) with level.
    unfold bind, Dict.getitem. rewrite Hget. unfold ret at 1.
    replace (m `min` len (spells problem)) with m by (unfold len; simpl; lia).
    by rewrite Hrun.
  - destruct selected as [|x rest]; [unfold len in Hlen; simpl in Hlen; lia|].
    destruct (spells_echo problem x) as (pre & suf & ->); [apply Hsub; left|].
    destruct (join_cons newline (pre +:+ problem +:+ suf) rest) as [tl ->].
    unfold echoes. apply str_in_spec. exists pre, (suf +:+ tl).
    by rewrite !str_app_assoc.
Qed.

(** X12. A call of [cast_interdimensional_spell] with a level of
    multiplier [m] (medium when the level is left out) advances the shared
    generator by exactly [m] draws, below 4, 3 and 2 in this order. *)
Theorem cast_interdimensional_spell_draws (problem : string)
    (creativity_level : option string) (m : Z) (g : rng) :
  Dict.get (default "medium" creativity_level) creativity_levels = Some m →
  ∃ out,
    cast_interdimensional_spell randbelow problem creativity_level g =
      (inr out, after_draws randbelow (take (Z.to_nat m) [4; 3; 2]%nat) g).
Proof.
  intros Hget.
  pose proof (creativity_levels_range _ _ Hget) as Hrange.
  destruct (random_sample_spec rng randbelow randbelow_lt (spells problem) m g)
    as (selected & g' & Hrun & Hlen & Hnd & Hsub).
  { apply spells_NoDup. }
  { unfold len. simpl. lia. }
  exists (join newline selected).
  unfold cast_interdimensional_spell, bind, Dict.getitem. rewrite Hget.
  unfold ret at 1.
  replace (m `min` len (spells problem)) with m by (unfold len; simpl; lia).
  rewrite Hrun. unfold ret. f_equal.
  unfold random_sample in Hrun.
  replace ((0 <=? m) && (m <=? len (spells problem))) with true in Hrun
    by (unfold len; simpl; destruct Hrange as [->|[->| ->]]; reflexivity).
  apply sample_loop_state in Hrun. rewrite Hrun.
  by destruct Hrange as [->|[->| ->]].
Qed.

End RandomTools.

Lemma lcg_randbelow_lt n g : (0 < n)%nat → ((lcg_randbelow n g).1 < n)%nat.
Proof. intros Hn. simpl. apply Nat.mod_upper_bound. lia. Qed.

Lemma consult_demogorgon_spec_witness :
  ∃ r, consult_demogorgon lcg_randbelow "the lights flicker" 5%nat = (inr r, 449%nat) ∧
       responses "the lights flicker" !! 2%nat = Some r.
Proof.
  destruct (consult_demogorgon_spec nat lcg_randbelow lcg_randbelow_lt
              "the lights flicker" 5%nat) as (r & Hrun & Hr & _).
  exists r. split; [exact Hrun | exact Hr].
Defined.

Lemma cast_interdimensional_spell_echoes_witness :
  ∃ out g',
    cast_interdimensional_spell lcg_randbelow "the lights flicker" (Some "low") 5%nat
      = (inr out, g') ∧
    echoes "the lights flicker" out = true.
Proof.
  apply (cast_interdimensional_spell_echoes nat lcg_randbelow lcg_randbelow_lt).
  apply (bool_decide_unpack _). vm_compute. reflexivity.
Defined.

Lemma cast_interdimensional_spell_draws_witness :
  ∃ out,
    cast_interdimensional_spell lcg_randbelow "the lights flicker" None 5%nat =
      (inr out, after_draws lcg_randbelow [4; 3]%nat 5%nat).
Proof.
  apply (cast_interdimensional_spell_draws nat lcg_randbelow lcg_randbelow_lt
           "the lights flicker" None 2 5%nat).
  reflexivity.
Defined.
